(* ===== verification/_CoqProject ===== *)
-Q . S2P
Prelude.v
JsNumber.v
JsValue.v
Clock.v
Store.v
Config.v
Acquire.v
System.v
Typing.v
Usage.v
Termination.v
Serial.v
Handle.v
LockSpec.v
Prompt.v
