(* ===== verification/Prelude.v ===== *)
(** * Locksmith: a verification development of [src/index.js]

    The program ([src/index.js], about 110 lines of node.js) is a
    distributed lock on top of Redis, following the "SETNX + expiring
    lease + GETSET" recipe of the Redis documentation.  Its parts are:

    - the constructor [Locksmith(options)] (lines 10-34), which fills a
      configuration (key prefix, lease timeout in seconds, retry budget)
      from the caller's options with JavaScript's [||] defaults;
    - the acquisition engine [Locksmith.prototype.lock] (lines 36-89):
      per request, a closure [aquire] computes an expiry, sends
      [SETNX prefix+key expiry] and chains three callbacks
      ([handleSetnx], [handleGet], [handleGetSet]) and a local [retry]
      that re-arms [aquire] with a one second [setTimeout];
    - the release guard [Locksmith.prototype._release] (lines 91-105),
      bound into the handle given to the caller, which deletes the key
      only while its own lease is still running;
    - collaborators that are not part of the repository: the Redis
      server (the four commands SETNX, GET, GETSET, DEL), the node_redis
      client (number arguments sent as decimal strings, bulk replies
      returned as strings or [null]), the [moment] clock, and the
      JavaScript operators the code relies on ([||], [<] between a
      number and a string or [null]).

    The development has one file per component.  [_CoqProject] compiles
    them in the order Prelude, JsNumber, JsValue, Clock, Store, Config, Acquire,
    System, Typing, Usage, Termination, Serial, Handle, LockSpec,
    Prompt:

    - [Prelude] (this file): the generic reflexive-transitive closure
      [star] of a step relation, the [locksmith] hint database, the
      [ls_scope] notations, the tactics [case_ltb], [destruct_if] and
      [simplify_lock], and the integer lemmas shared by the components.
    - [JsNumber]: JavaScript's StringToNumber ([str_to_number]) on the
      whole StringNumericLiteral grammar.  White space is trimmed,
      including the Unicode spaces in their UTF-8 bytes.  The literals
      are [0x]/[0o]/[0b], signed decimals with a fraction and an
      exponent, and [Infinity]; anything else is NaN.  [num_lt] is the
      exact comparison of an integer with the result.  Lemmas: the
      decimal form of an integer reads back as that integer.
    - [JsValue]: JavaScript values as the code sees them ([jsval]),
      [String(n)] for integers ([number_to_string]), [ToNumber] on
      values, the relational comparison [js_lt_num] used at lines 70
      and 78, and falsiness for [||].  Lemmas: printing then reading an
      integer gives it back, so the lease written by SETNX/GETSET
      compares exactly as the integer that was computed (spec 4.1, "no
      drift"; used by C32).  [string_to_number] is the decimal-integer
      reader the invariants use to recognise printed leases.
    - [Clock]: [moment().unix()] and [moment().add('seconds', t)] on a
      millisecond clock; [expires_at] is the lease calculator of lines
      49 and 73, proved equal to [unix now + timeout].
    - [Store]: the store capability as a type class [KVStore] with its
      map laws (the interface between the engine and Redis), its
      [gmap] instance, and the Redis commands [exec_cmd] (SETNX, GET,
      GETSET, DEL) with their replies.
    - [Config]: the constructor's option handling ([Locksmith]), and
      [Locksmith_new], which also returns the caller's options object
      after the constructor's [delete]s (the object is shared with
      [redis.createClient] and with the caller), and [redis_client],
      the client the constructor keeps: the caller's [redisClient], or
      [redis.createClient(host || null, port || null, options)].
      Theorems: [0] options
      fall back to the defaults (C17); reusing the object gives the
      default prefix and timeout (C21).
    - [Acquire]: one request's closure state [req] (key, retry counter,
      [expires]) and program point [pc], and one definition per
      function of the source: [lock], [aquire], [handleSetnx],
      [handleGet], [retry], [handleGetSet], [_release], [handleDel].
      Theorems: the behaviour of every handler on every branch.
    - [System]: the fine-grained concurrent semantics.  A world holds
      the clock, the store, every request and the diagnostics log;
      [step] interleaves clock ticks, new [lock] calls, the server's
      atomic execution of any in-flight command (or its failure, with
      or without effect), callbacks, timers and releases.  [step_fn] is
      an executable scheduler, sound for [step], and [run] plays a
      schedule.  Theorems on every reachable world: each request's
      command is on its own key with its own lease and the store holds
      only leases the code wrote (C6); the lease a SETNX or GETSET
      writes reads back, at lines 70 and 78, as the [expires] the
      request's handle binds (C32).  Theorems on single steps: a late
      release never touches the store (C4); the loser of a GETSET race
      overwrites the winner's lease (C3); a SETNX whose reply is lost
      leaves an orphaned lease behind a failed request (C20).
      Concrete schedules: [Module Race], 27 events with the test's
      configuration, reaches two requests holding unexpired leases on
      one key (C2), contrary to the spec's section 4.2; [Module
      DelayedDel] reaches the same with no GETSET race, a release that
      passed the guard having its DEL land after a takeover (C22);
      [Module LateCallback] checks schedules against both races and
      shows that excluding them is not enough, since a GETSET loser
      whose callback runs after the lease it read has expired takes the
      lock (C23).
    - [Serial]: the same handlers run with every acquisition attempt
      and release atomic ([settle]: a command and its callback back to
      back, one clock reading per attempt).  The invariant "an
      unexpired holder is alone on its key, and the store holds its
      lease" is preserved by every serialized step: mutual exclusion
      holds in that regime (C1).  Also: a fresh key is acquired on the
      first attempt (C7); a timely release frees the key for the next
      [lock] (C8); a request contending with a lease that outlives its
      budget fails with [MaxRetriesError] after exactly [retries + 2]
      attempts, one more than the option's name suggests (C5); a request
      whose key's lease runs out within its budget waits it out and
      takes the key over by GETSET (C18, the spec's section 8).
    - [Handle]: the release handle as a value.  [handle] is
      [_release.bind(_this, key, expires)] (lines 55 and 83), and
      [call_handle] runs [_release] on the bound key and lease, with its
      DEL.  [hstep] extends the serialized system with further calls of
      the handle of a request that has already released; [hstep_fn] and
      [hrun] are its scheduler.  Theorems:
      - a handle called again while its lease runs deletes the lease of
        whoever took the key since (C28);
      - a concrete schedule of lock, release, lock, a second call of
        the first handle and lock, all in one second, leaves two
        requests holding unexpired leases on one key (C30), although
        the spec calls a second call a no-op;
      - if handles are called again only after their lease ran out,
        mutual exclusion holds in every world reached (C29);
      - the first call of a handle does exactly what [_release] does on
        the request that received it (C33).
    - [LockSpec]: what the lock promises, as an abstract lease table
      over a clock ([astep]: grant a free or expired key with lease
      [unix now + T], remove a running lease, let time pass), and the
      abstraction [abs] from a serialized world to the table its store
      encodes.  Theorem: every world the serialized system reaches is
      related to a state the specification reaches, each store change
      being one specification step (C19, a forward simulation).
    - [Prompt]: the fine-grained system restricted to prompt schedules,
      in which each command's callback runs right after the server
      executes it, every GETSET writes a lease at least the one it
      replaces and every DEL lands while its lease still runs (the
      conditions [LateCallback.timely_action] checks).  The invariant
      [excl_inv] says that an owner (a request holding, or with its DEL
      in flight, before its lease ends) is alone on its key and the
      store holds a lease at least its own.  Theorem: every world such
      a schedule reaches is reachable in [System] and satisfies
      [exclusive] (C24).  Ruling out the conditions behind the races of
      C2, C22 and C23 is thus enough to restore mutual exclusion.
    - [Termination]: a weight [measure] on requests (retries left
      times 11, plus [rank], the position within the attempt).  Every
      event that changes a request lowers its weight, which stays
      non-negative in every reachable world (the retry counter stays
      within its budget, [System.reachable_retries_ok]).  So the relation
      "one event changes [r] into [r']" is well founded (C25): a
      request takes part in finitely many events, however the events
      interleave.
    - [Typing]: the type of each command's replies as a boolean test
      ([reply_typed]: [0] or [1] for SETNX and DEL, [null] or a decimal
      lease for GET and GETSET).  In every reachable world a reply
      waiting for its callback has its command's type.  Theorem: the
      tests [moment().unix() < keyExpires] of lines 70 and 78
      compare with the lease read, or with [0] for an absent key, and
      never with [NaN] (C27).
    - [Usage]: the usage script [src/test/index.js] composed with the
      library.  [module_exports] is the entry point (lines 117-121).
      [script] holds the four calls of the test as data: each call's
      key, whether its callback checks [err], and whether it releases
      at once or after [setTimeout(release, 15000)].  [react] is the
      callback body.  [ustep_fn] runs server events ([System.step_fn])
      and the script's timers; after an uncaught [TypeError] (a
      callback that reads [err] as a handle) only server events run.
      Theorem: in every world the script reaches, its delayed release
      comes after the 2 second lease expired, so it never deletes the
      key and only logs (C26).  The crash of a callback that ignores
      [err] is modelled by [react] and recorded as a finding.
    - The handler theorems of [Acquire] (C9-C15) give the behaviour of
      every callback on every branch, errors included.  C31 covers
      values the code never writes: a value reading as NaN counts as
      an expired lease and is taken over at once, while [Infinity]
      never expires; [Clock] (C16) gives the lease arithmetic they rely
      on.

    Bounds and fuel.  Integers are [Z]: JavaScript numbers are doubles
    but the values involved (Unix seconds, milliseconds, counters) stay
    far below 2^53, where doubles are exact integers.  For the same
    reason [str_to_number] keeps a decimal string's exact value
    [m * 10^k] and does not round it to a double.  [Serial.settle]
    takes fuel: an attempt sends at most three commands (SETNX, GET,
    GETSET), so [attempt] uses fuel 3 and [release_now] fuel 1, and
    [attempt_cases]/[release_cases] show that this fuel is never the
    reason a run stops.  [Serial.attempts] repeats attempts with fuel
    counting attempts; C5, C7 and C18 state the fuel that suffices
    ([retries + 2], 1 and [e0 - unix now + 1]) and prove that the
    outcome is then reached.

    Termination is proved as well-foundedness (C25) rather than
    with fuel.  The measure is bounded by [11 * (max 0 (R + 1) + 1) + 10]
    for a retry budget [R].

    Not modelled:
    - the TCP connection that [redis.createClient] opens ([redis_client]
      records its arguments but does not interpret them);
    - the content of the [console.error] messages (only their kind is
      logged);
    - rounding to doubles: a decimal string with more than about 16
      significant digits, or beyond the double range (such as [1e400],
      which JavaScript reads as [Infinity]), keeps its exact value.
      Against the integer clock this can matter only for such strings
      lying within one rounding step of the current second, or for
      underflow against [0];
    - non-integer timeouts;
    - the two [moment()] readings of [handleGet] (the test at line 70
      and the new expiry at line 73): a callback runs at one instant,
      so both read the same clock;
    - repeated handle calls in the fine-grained system of [System]:
      they are modelled in the serialized regime ([Handle]), where one
      concrete schedule already breaks mutual exclusion.

    Plan for later extensions: prompt schedules with a bounded delay
    between a command and its callback (this needs execution timestamps
    in [PReady]). *)

From stdpp Require Export base strings gmap list.
From Stdlib Require Export ZArith Lia.

Declare Scope ls_scope.
Delimit Scope ls_scope with ls.
Open Scope Z_scope.

Create HintDb locksmith discriminated.
Create Rewrite HintDb locksmith_rw.

(** ** Sequences of steps *)

Section Star.
Context {A : Type} (R : A -> A -> Prop).

Inductive star : A -> A -> Prop :=
| star_refl a : star a a
| star_step a b c : R a b -> star b c -> star a c.

Lemma star_one a b : R a b -> star a b.
Proof. eauto using star. Qed.

Lemma star_trans a b c : star a b -> star b c -> star a c.
Proof. induction 1; eauto using star. Qed.

(** Invariance by rule induction: a property preserved by every step
    holds along every sequence. *)
Lemma star_ind_inv (P : A -> Prop) :
  (forall a b, P a -> R a b -> P b) -> forall a b, star a b -> P a -> P b.
Proof. intros Hpres a b Hs. induction Hs; eauto. Qed.
End Star.

Arguments star_refl {A R} a.
Arguments star_step {A R} a b c.

(** [R⋆] is the reflexive-transitive closure of [R]. *)
Notation "R ⋆" := (star R) (at level 1, format "R ⋆") : ls_scope.

#[export] Hint Constructors star : locksmith.
#[export] Hint Resolve star_one star_trans : locksmith.

(** ** Integer lemmas shared by the components *)

Lemma Z_div_add_whole (a t c : Z) : c <> 0 -> (a + t * c) / c = a / c + t.
Proof. intros Hc. now apply Z.div_add. Qed.

Lemma Z_div_mono_1000 (a b : Z) : a <= b -> a / 1000 <= b / 1000.
Proof. intros H. apply Z.div_le_mono; lia. Qed.

Lemma Z_ltb_irrefl_false (a : Z) : (a <? a) = false.
Proof. apply Z.ltb_irrefl. Qed.

#[export] Hint Resolve Z_div_mono_1000 : locksmith.
#[export] Hint Rewrite Z_ltb_irrefl_false : locksmith_rw.

(** Case analysis on a boolean integer comparison of the goal. *)
Ltac case_ltb :=
  match goal with
  | |- context [?a <? ?b] => destruct (Z.ltb_spec a b)
  | H : context [?a <? ?b] |- _ => destruct (Z.ltb_spec a b)
  end.

(** Case analysis on the first [if] of the goal. *)
Ltac destruct_if :=
  match goal with
  | |- context [if ?b then _ else _] => destruct b
  end.

(** Unfold the record projections and close the equalities the
    handlers produce. *)
Ltac simplify_lock :=
  repeat (simpl in *; simplify_eq; try case_ltb); try lia; try done.
