(* ===== verification/JsNumber.v ===== *)
(** * [ToNumber] on strings (ECMA-262, StringToNumber)

    The test [moment().unix() < keyExpires] of lines 70 and 78 converts
    the string Redis returned with [ToNumber].  This file models that
    conversion on the whole StringNumericLiteral grammar:
    - leading and trailing StrWhiteSpace is trimmed (TAB, LF, VT, FF,
      CR, space, and the Unicode spaces, line separators and the BOM,
      read from the UTF-8 bytes node_redis decodes);
    - what remains is empty (the value [0]), a [0x]/[0o]/[0b] literal,
      or an optionally signed decimal literal (digits, an optional
      fraction, an optional exponent), or [Infinity];
    - anything else is [NaN].
    A finite value is kept exactly as [m * 10^k] ([NFin m k]) and is not
    rounded to a double; [num_lt] compares an integer with it exactly.
    Lemmas: the decimal form [String(n)] of an integer reads back as
    [n], so a lease the code wrote compares as the integer it printed
    ([JsValue.js_lt_num_lease]). *)

From S2P Require Import Prelude.
From Stdlib Require Import Ascii DecimalString DecimalZ DecimalPos.

(** The result of [ToNumber]: [m * 10^k], an infinity, or [NaN]. *)
Inductive jsnum :=
| NFin (m k : Z)
| NInf (neg : bool)
| NNaN.

(** ** Lexing *)

Definition code (c : ascii) : Z := Z.of_nat (nat_of_ascii c).

(** The value of [c] as a digit of base [b] (2, 8, 10 or 16). *)
Definition digit_val (b : Z) (c : ascii) : option Z :=
  let n := code c in
  let v := if (48 <=? n) && (n <=? 57) then Some (n - 48)
           else if (97 <=? n) && (n <=? 102) then Some (n - 87)
           else if (65 <=? n) && (n <=? 70) then Some (n - 55)
           else None in
  match v with Some d => if d <? b then Some d else None | None => None end.

(** The longest run of base-[b] digits at the head of [l], folded onto
    [acc]; also its length and the rest of [l]. *)
Fixpoint digits (b : Z) (l : list ascii) (acc : Z) (n : nat) : Z * nat * list ascii :=
  match l with
  | c :: l' =>
      match digit_val b c with
      | Some d => digits b l' (acc * b + d) (S n)
      | None => (acc, n, l)
      end
  | [] => (acc, n, [])
  end.

(** One-byte StrWhiteSpaceChar: TAB, LF, VT, FF, CR and space. *)
Definition ws1 (a : Z) : bool := ((9 <=? a) && (a <=? 13)) || (a =? 32).

(** Three-byte StrWhiteSpaceChar in UTF-8: U+1680, U+2000-U+200A,
    U+2028, U+2029, U+202F, U+205F, U+3000 and U+FEFF. *)
Definition ws3 (a b c : Z) : bool :=
  ((a =? 225) && (b =? 154) && (c =? 128)) ||
  ((a =? 226) && (b =? 128) &&
     (((128 <=? c) && (c <=? 138)) || (c =? 168) || (c =? 169) || (c =? 175))) ||
  ((a =? 226) && (b =? 129) && (c =? 159)) ||
  ((a =? 227) && (b =? 128) && (c =? 128)) ||
  ((a =? 239) && (b =? 187) && (c =? 191)).

(** The byte length of the StrWhiteSpaceChar that starts [l], or [0];
    U+00A0 is the two bytes 194 160. *)
Definition ws_len (l : list ascii) : nat :=
  match map code l with
  | a :: l1 =>
      if ws1 a then 1%nat else
      match l1 with
      | b :: l2 =>
          if (a =? 194) && (b =? 160) then 2%nat else
          match l2 with c :: _ => if ws3 a b c then 3%nat else 0%nat | [] => 0%nat end
      | [] => 0%nat
      end
  | [] => 0%nat
  end.

(** The same for the StrWhiteSpaceChar that ends a string, given its
    bytes in reverse order. *)
Definition ws_len_rev (r : list ascii) : nat :=
  match map code r with
  | a :: r1 =>
      if ws1 a then 1%nat else
      match r1 with
      | b :: r2 =>
          if (b =? 194) && (a =? 160) then 2%nat else
          match r2 with c :: _ => if ws3 c b a then 3%nat else 0%nat | [] => 0%nat end
      | [] => 0%nat
      end
  | [] => 0%nat
  end.

(** Drop white space from the head, with fuel: each round drops at
    least one byte, so [length l] rounds are enough. *)
Fixpoint drop_ws (wl : list ascii -> nat) (fuel : nat) (l : list ascii) : list ascii :=
  match fuel with
  | O => l
  | S f => match wl l with O => l | k => drop_ws wl f (drop k l) end
  end.

(** [String.prototype.trim] as StringToNumber applies it. *)
Definition trim (l : list ascii) : list ascii :=
  let l1 := drop_ws ws_len (length l) l in
  rev (drop_ws ws_len_rev (length l1) (rev l1)).

(** ** Parsing *)

(** The base a [0x], [0o] or [0b] prefix selects. *)
Definition radix_of (c : ascii) : option Z :=
  if Ascii.eqb c "x" || Ascii.eqb c "X" then Some 16
  else if Ascii.eqb c "o" || Ascii.eqb c "O" then Some 8
  else if Ascii.eqb c "b" || Ascii.eqb c "B" then Some 2
  else None.

(** NonDecimalIntegerLiteral: the whole of [l], unsigned. *)
Definition non_decimal (l : list ascii) : option jsnum :=
  match l with
  | c0 :: c1 :: l' =>
      if Ascii.eqb c0 "0" then
        match radix_of c1 with
        | Some b =>
            let '(v, n, rest) := digits b l' 0 0 in
            match n, rest with S _, [] => Some (NFin v 0) | _, _ => None end
        | None => None
        end
      else None
  | _ => None
  end.

(** ExponentPart after its [e]: an optionally signed run of digits,
    ending the literal. *)
Definition exponent (l : list ascii) : option Z :=
  let '(sg, l') := match l with
                   | c :: l' => if Ascii.eqb c "+" then (1, l')
                                else if Ascii.eqb c "-" then (-1, l') else (1, l)
                   | [] => (1, l)
                   end in
  let '(x, n, rest) := digits 10 l' 0 0 in
  match n, rest with S _, [] => Some (sg * x) | _, _ => None end.

(** StrUnsignedDecimalLiteral: [Infinity], or digits with an optional
    fraction and exponent, at least one digit in all. *)
Definition unsigned_decimal (l : list ascii) : option jsnum :=
  if bool_decide (l = String.list_ascii_of_string "Infinity") then Some (NInf false) else
  let '(ip, ni, l1) := digits 10 l 0 0 in
  let '(m, nf, l2) := match l1 with
                      | c :: l1' => if Ascii.eqb c "." then digits 10 l1' ip 0 else (ip, O, l1)
                      | [] => (ip, O, l1)
                      end in
  if Nat.eqb (ni + nf) 0 then None else
  match l2 with
  | [] => Some (NFin m (- Z.of_nat nf))
  | c :: l3 =>
      if Ascii.eqb c "e" || Ascii.eqb c "E" then
        match exponent l3 with Some x => Some (NFin m (x - Z.of_nat nf)) | None => None end
      else None
  end.

(** StrDecimalLiteral: an optional sign, then the unsigned literal. *)
Definition decimal_literal (l : list ascii) : option jsnum :=
  match l with
  | c :: l' =>
      if Ascii.eqb c "+" then unsigned_decimal l'
      else if Ascii.eqb c "-" then
        match unsigned_decimal l' with
        | Some (NFin m k) => Some (NFin (- m) k)
        | Some (NInf b) => Some (NInf (negb b))
        | o => o
        end
      else unsigned_decimal l
  | [] => None
  end.

(** StringToNumber. *)
Definition str_to_number (s : string) : jsnum :=
  match trim (String.list_ascii_of_string s) with
  | [] => NFin 0 0
  | l =>
      match non_decimal l with
      | Some x => x
      | None => match decimal_literal l with Some x => x | None => NNaN end
      end
  end.

(** [n < x] for an integer [n]: exact on finite values, true below
    [+Infinity], false against [-Infinity] and [NaN]. *)
Definition num_lt (n : Z) (x : jsnum) : bool :=
  match x with
  | NFin m k => if 0 <=? k then n <? m * 10 ^ k else n * 10 ^ (- k) <? m
  | NInf neg => negb neg
  | NNaN => false
  end.

(** ** Reading back printed integers *)

(** The characters of [String(d)] for a decimal [d]. *)
Definition uint_chars (d : Decimal.uint) : list ascii :=
  String.list_ascii_of_string (NilEmpty.string_of_uint d).

Definition printable (c : ascii) : Prop := 33 <= code c <= 127.

(** White space neither starts nor ends with a printable ASCII byte. *)
Lemma ws_len_printable c l : printable c -> ws_len (c :: l) = 0%nat.
Proof.
  unfold printable, ws_len. intros Hc. cbn [map].
  assert (H1 : ws1 (code c) = false).
  { unfold ws1. apply orb_false_intro; [apply andb_false_iff | apply Z.eqb_neq]; lia. }
  rewrite H1. destruct (map code l) as [|b [|c' l']]; [done | |].
  - rewrite (proj2 (Z.eqb_neq (code c) 194)) by lia. done.
  - rewrite (proj2 (Z.eqb_neq (code c) 194)) by lia. cbn [andb].
    unfold ws3. rewrite !(proj2 (Z.eqb_neq (code c) _)) by lia. done.
Qed.

Lemma ws_len_rev_printable c r : printable c -> ws_len_rev (c :: r) = 0%nat.
Proof.
  unfold printable, ws_len_rev. intros Hc. cbn [map].
  assert (H1 : ws1 (code c) = false).
  { unfold ws1. apply orb_false_intro; [apply andb_false_iff | apply Z.eqb_neq]; lia. }
  rewrite H1. destruct (map code r) as [|b [|c' r']]; [done | |].
  - rewrite (proj2 (Z.eqb_neq (code c) 160)) by lia. by rewrite andb_false_r.
  - rewrite (proj2 (Z.eqb_neq (code c) 160)) by lia. rewrite andb_false_r.
    unfold ws3. rewrite !(proj2 (Z.eqb_neq (code c) _)) by lia.
    rewrite (proj2 (Z.leb_gt 128 (code c))) by lia. rewrite !andb_false_r. done.
Qed.

Lemma drop_ws_stop wl fuel l : wl l = 0%nat -> drop_ws wl fuel l = l.
Proof. destruct fuel; simpl; [done | by intros ->]. Qed.

(** A string of printable bytes is not trimmed. *)
Lemma trim_printable l : Forall printable l -> trim l = l.
Proof.
  intros Hl. unfold trim. destruct l as [|c l0]; [done |].
  rewrite (drop_ws_stop ws_len _ _ (ws_len_printable c l0 (Forall_inv Hl))).
  destruct (rev (c :: l0)) as [|c' r] eqn:Hr.
  { apply (f_equal length) in Hr. rewrite length_rev in Hr. discriminate. }
  assert (Hc' : printable c').
  { pose proof (List.Forall_rev Hl) as Hrl. rewrite Hr in Hrl. exact (Forall_inv Hrl). }
  rewrite (drop_ws_stop ws_len_rev _ _ (ws_len_rev_printable c' r Hc')).
  by rewrite <- Hr, rev_involutive.
Qed.

Lemma digits_cons b c l acc n v :
  digit_val b c = Some v -> digits b (c :: l) acc n = digits b l (acc * b + v) (S n).
Proof. intros Hv. simpl. by rewrite Hv. Qed.

(** Peel one printed digit and apply the induction hypothesis. *)
Ltac digit_step IH :=
  unfold uint_chars; cbn [NilEmpty.string_of_uint String.list_ascii_of_string];
  erewrite digits_cons by reflexivity;
  repeat match goal with
  | |- context [code ?c] => let v := eval vm_compute in (code c) in change (code c) with v
  end;
  match goal with
  | |- context [String.list_ascii_of_string (NilEmpty.string_of_uint ?d)] =>
      change (String.list_ascii_of_string (NilEmpty.string_of_uint d)) with (uint_chars d)
  end;
  match goal with
  | |- digits _ _ ?a _ = (Z.pos (Pos.of_uint_acc _ ?p'), _, _) =>
      replace a with (Z.pos p') by lia
  | |- digits _ _ ?a _ = (Z.of_N (Npos (Pos.of_uint_acc _ ?p')), _, _) =>
      replace a with (Z.pos p') by lia
  | |- _ => replace (0 * 10 + 0) with 0 by lia
  end;
  rewrite IH; f_equal; f_equal; lia.

(** Reading the digits of [String(d)] onto a positive accumulator is
    [Pos.of_uint_acc]. *)
Lemma digits_uint_pos d p n :
  digits 10 (uint_chars d) (Z.pos p) n = (Z.pos (Pos.of_uint_acc d p), (n + Decimal.nb_digits d)%nat, []).
Proof.
  revert p n. induction d as [|d IH|d IH|d IH|d IH|d IH|d IH|d IH|d IH|d IH|d IH]; intros p n.
  1: by rewrite Nat.add_0_r.
  all: cbn [Pos.of_uint_acc Decimal.nb_digits]; digit_step IH.
Qed.

(** From an empty accumulator, the digits of [String(d)] read as [d]. *)
Lemma digits_uint d n :
  digits 10 (uint_chars d) 0 n = (Z.of_uint d, (n + Decimal.nb_digits d)%nat, []).
Proof.
  revert n. induction d as [|d IH|d IH|d IH|d IH|d IH|d IH|d IH|d IH|d IH|d IH]; intros n.
  1: by rewrite Nat.add_0_r.
  1: unfold Z.of_uint in *; cbn [Pos.of_uint Decimal.nb_digits]; digit_step IH.
  all: unfold Z.of_uint; cbn [Pos.of_uint Decimal.nb_digits]; digit_step digits_uint_pos.
Qed.

Definition is_digit (c : ascii) : Prop := is_Some (digit_val 10 c).

Lemma digit_printable c : is_digit c -> printable c.
Proof.
  unfold is_digit, digit_val, printable. intros [v Hv].
  repeat case_match; simplify_eq; rewrite ?andb_true_iff, ?Z.leb_le, ?Z.ltb_lt in *; lia.
Qed.

Lemma radix_digit c : is_digit c -> radix_of c = None.
Proof.
  intros [v Hv]. unfold radix_of.
  repeat match goal with
  | |- context [Ascii.eqb c ?k] => destruct (Ascii.eqb_spec c k) as [-> | ?]; [discriminate Hv |]
  end; reflexivity.
Qed.

Lemma uint_chars_digits d : Forall is_digit (uint_chars d).
Proof.
  induction d; unfold uint_chars in *; cbn.
  1: constructor.
  all: constructor; [eexists; reflexivity | exact IHd].
Qed.

Lemma uint_chars_printable d : Forall printable (uint_chars d).
Proof. eapply Forall_impl; [apply uint_chars_digits | apply digit_printable]. Qed.

Lemma non_decimal_digits l : Forall is_digit l -> non_decimal l = None.
Proof.
  intros Hl. destruct l as [|c0 [|c1 l]]; [done | done |]. cbn [non_decimal].
  apply Forall_inv_tail, Forall_inv in Hl. rewrite (radix_digit c1 Hl). by case_match.
Qed.

(** The digits of a nonempty [String(d)] are a decimal literal. *)
Lemma unsigned_uint d :
  d <> Decimal.Nil -> unsigned_decimal (uint_chars d) = Some (NFin (Z.of_uint d) 0).
Proof.
  intros Hd. unfold unsigned_decimal.
  rewrite bool_decide_eq_false_2.
  2: { intros Heq. pose proof (uint_chars_digits d) as Hdig. rewrite Heq in Hdig.
       apply Forall_inv in Hdig as [v Hv]. discriminate Hv. }
  rewrite digits_uint. cbn.
  destruct d; [done | ..]; reflexivity.
Qed.

(** *** Round trip: [ToNumber(String(n))] is [n] for a printed decimal,
    with a sign or without. *)
Lemma str_to_number_uint d :
  d <> Decimal.Nil -> str_to_number (NilEmpty.string_of_uint d) = NFin (Z.of_uint d) 0.
Proof.
  intros Hd. unfold str_to_number. fold (uint_chars d).
  rewrite (trim_printable _ (uint_chars_printable d)).
  pose proof (unsigned_uint d Hd) as Hu. pose proof (uint_chars_digits d) as Hdig.
  destruct (uint_chars d) as [|c l] eqn:Hl; [destruct d; try done; discriminate Hl |].
  rewrite (non_decimal_digits _ Hdig). apply Forall_inv in Hdig.
  cbn [decimal_literal]. destruct (Ascii.eqb_spec c "+") as [-> | _]; [destruct Hdig; discriminate |].
  destruct (Ascii.eqb_spec c "-") as [-> | _]; [destruct Hdig; discriminate |]. by rewrite Hu.
Qed.

Lemma str_to_number_sign (c : ascii) d :
  d <> Decimal.Nil -> (c = "-"%char \/ c = "+"%char) ->
  str_to_number (String c (NilEmpty.string_of_uint d)) =
    NFin (if Ascii.eqb c "-" then - Z.of_uint d else Z.of_uint d) 0.
Proof.
  intros Hd Hc. unfold str_to_number. cbn [String.list_ascii_of_string]. fold (uint_chars d).
  rewrite trim_printable.
  2: { constructor; [destruct Hc as [-> | ->]; unfold printable; split; vm_compute; intro; discriminate |].
       apply uint_chars_printable. }
  pose proof (unsigned_uint d Hd) as Hu.
  destruct (uint_chars d) as [|c1 l] eqn:Hl; [destruct d; try done; discriminate Hl |].
  destruct Hc as [-> | ->]; cbn; by rewrite Hu.
Qed.
