(* ===== verification/JsValue.v ===== *)
(** * JavaScript values as [src/index.js] uses them

    The handlers compare [moment().unix()] (a number) with what Redis
    returned (a string, or [null] when the key is absent) using [<]
    (lines 70 and 78), and the constructor picks its defaults with [||]
    (lines 14-18).  This file models the values involved ([jsval]),
    [String(n)] on integers, [ToNumber] on values (on strings it is
    [JsNumber.str_to_number], the whole StringToNumber grammar), the
    number/value comparison, and JavaScript truthiness.  It also keeps
    [string_to_number], the reading of a string as a decimal integer
    that the invariants use to recognise printed leases.
    Numbers are integers ([Z]) plus [NaN]: every number of the code is
    an integer count of seconds, milliseconds or retries. *)

From S2P Require Import Prelude JsNumber.
From Stdlib Require Import Ascii DecimalString DecimalZ DecimalPos.

Inductive jsval :=
| JUndefined
| JNull
| JBool (b : bool)
| JNaN
| JNum (z : Z)
| JStr (s : string).

(** [String(n)] for an integer [n]: its shortest decimal form, with a
    leading [-] for negative numbers.  node_redis sends every number
    argument of a command in this form. *)
Definition number_to_string (z : Z) : string :=
  NilEmpty.string_of_int (Z.to_int z).

(** A nonempty run of decimal digits, as an integer. *)
Definition digits_value (s : string) : option Z :=
  match s with
  | EmptyString => None
  | _ => option_map Z.of_uint (NilEmpty.uint_of_string s)
  end.

(** A string read as an optionally signed run of decimal digits (the
    empty string reads as [0]); [None] for any other string. *)
Definition string_to_number (s : string) : option Z :=
  match s with
  | EmptyString => Some 0
  | String c rest =>
      if Ascii.eqb c "-"%char then option_map Z.opp (digits_value rest)
      else if Ascii.eqb c "+"%char then digits_value rest
      else digits_value s
  end.

(** [ToNumber] on a value. *)
Definition to_number (v : jsval) : jsnum :=
  match v with
  | JUndefined | JNaN => NNaN
  | JNull => NFin 0 0
  | JBool b => NFin (if b then 1 else 0) 0
  | JNum z => NFin z 0
  | JStr s => str_to_number s
  end.

(** [n < v] for a number [n]: the abstract relational comparison
    converts [v] with [ToNumber]; any comparison with [NaN] is false.
    This is the test [moment().unix() < keyExpires] of lines 70 and 78. *)
Definition js_lt_num (n : Z) (v : jsval) : bool := num_lt n (to_number v).

(** JavaScript truthiness, and [a || b]. *)
Definition truthy (v : jsval) : bool :=
  match v with
  | JUndefined | JNull | JNaN => false
  | JBool b => b
  | JNum z => negb (z =? 0)
  | JStr s => negb (String.eqb s "")
  end.

Definition js_or (a b : jsval) : jsval := if truthy a then a else b.

(** [ToString], used when a value is concatenated to a string with [+]. *)
Definition to_js_string (v : jsval) : string :=
  match v with
  | JUndefined => "undefined"
  | JNull => "null"
  | JBool b => if b then "true" else "false"
  | JNaN => "NaN"
  | JNum z => number_to_string z
  | JStr s => s
  end.

(** ** Printing and parsing integers *)

Lemma to_int_shape (z : Z) :
  (exists d, Z.to_int z = Decimal.Pos d /\ d <> Decimal.Nil /\ Z.of_uint d = z) \/
  (exists d, Z.to_int z = Decimal.Neg d /\ d <> Decimal.Nil /\ - Z.of_uint d = z).
Proof.
  pose proof (DecimalZ.of_to z) as Hz.
  destruct z as [|p|p]; simpl in *.
  - left. exists (Decimal.D0 Decimal.Nil). split_and!; done.
  - left. eexists. split_and!; [done | apply Unsigned.to_uint_nonnil | done].
  - right. eexists. split_and!; [done | apply Unsigned.to_uint_nonnil | done].
Qed.

Lemma digits_value_print (d : Decimal.uint) :
  d <> Decimal.Nil ->
  digits_value (NilEmpty.string_of_uint d) = Some (Z.of_uint d).
Proof.
  intros Hd. pose proof (NilEmpty.usu d) as Hu.
  destruct d; [congruence | ..]; unfold digits_value; simpl in *; now rewrite Hu.
Qed.

Lemma string_to_number_digits (d : Decimal.uint) :
  d <> Decimal.Nil ->
  string_to_number (NilEmpty.string_of_uint d) = Some (Z.of_uint d).
Proof.
  intros Hd. rewrite <- (digits_value_print d Hd).
  destruct d; [congruence | ..]; reflexivity.
Qed.

(** *** Round trip: a lease written as [String(e)] reads back as [e]. *)
Lemma string_to_number_roundtrip (z : Z) :
  string_to_number (number_to_string z) = Some z.
Proof.
  unfold number_to_string.
  destruct (to_int_shape z) as [(d & -> & Hd & <-) | (d & -> & Hd & <-)].
  - now apply string_to_number_digits.
  - cbn [NilEmpty.string_of_int string_to_number Ascii.eqb].
    rewrite (digits_value_print d Hd). reflexivity.
Qed.

(** Consequently the comparison of lines 70 and 78 against a stored
    lease is the integer comparison with that lease. *)
(** [ToNumber(String(e))] is [e]. *)
Lemma str_to_number_print (z : Z) : str_to_number (number_to_string z) = NFin z 0.
Proof.
  unfold number_to_string.
  destruct (to_int_shape z) as [(d & -> & Hd & <-) | (d & -> & Hd & <-)].
  - by apply str_to_number_uint.
  - cbn [NilEmpty.string_of_int]. by rewrite (str_to_number_sign "-" d Hd (or_introl eq_refl)).
Qed.

Lemma js_lt_num_lease (n e : Z) :
  js_lt_num n (JStr (number_to_string e)) = (n <? e).
Proof. unfold js_lt_num. cbn [to_number]. rewrite str_to_number_print. cbn. by rewrite Z.mul_1_r. Qed.

(** An absent key reads as [null], which compares as [0]. *)
Lemma js_lt_num_null (n : Z) : js_lt_num n JNull = (n <? 0).
Proof. reflexivity. Qed.

#[export] Hint Rewrite string_to_number_roundtrip js_lt_num_lease js_lt_num_null : locksmith_rw.

(** Printing is injective, so distinct leases are distinct store values. *)
Lemma number_to_string_inj (a b : Z) :
  number_to_string a = number_to_string b -> a = b.
Proof.
  intros H. apply (f_equal string_to_number) in H.
  rewrite !string_to_number_roundtrip in H. congruence.
Qed.
