(* ===== verification/Clock.v ===== *)
(** * The clock and the lease calculator

    The code reads the time with [moment()], whose value is a count of
    milliseconds since the epoch.  [moment().unix()] is that count
    divided by 1000 and rounded down; [moment().add('seconds', t)]
    adds [t * 1000] milliseconds.  Lines 49 and 73 compute a lease
    expiry as [moment().add('seconds', _this._timeout).unix()]. *)

From S2P Require Import Prelude.

(** [moment().unix()] at the millisecond time [ms]. *)
Definition unix (ms : Z) : Z := ms / 1000.

(** [moment().add('seconds', t)] at the millisecond time [ms]. *)
Definition add_seconds (ms t : Z) : Z := ms + t * 1000.

(** The lease calculator of lines 49 and 73. *)
Definition expires_at (ms timeout : Z) : Z := unix (add_seconds ms timeout).

(** The fixed retry delay of [setTimeout(aquire, 1000)] (line 66). *)
Definition retry_delay : Z := 1000.

(** *** The expiry is the current Unix second plus the timeout, with no
    sub-second drift. *)
Lemma expires_at_spec (ms timeout : Z) :
  expires_at ms timeout = unix ms + timeout.
Proof. unfold expires_at, add_seconds, unix. now apply Z_div_add_whole. Qed.

(** The Unix second never decreases as time goes on. *)
Lemma unix_mono (a b : Z) : a <= b -> unix a <= unix b.
Proof. apply Z_div_mono_1000. Qed.

(** After the retry delay the Unix second has advanced by exactly one. *)
Lemma unix_after_delay (ms : Z) : unix (ms + retry_delay) = unix ms + 1.
Proof. unfold unix, retry_delay. now rewrite <- Z_div_add_whole by lia. Qed.

#[export] Hint Rewrite expires_at_spec unix_after_delay : locksmith_rw.
#[export] Hint Resolve unix_mono : locksmith.

(** *** C16. The lease calculator: the expiry is [unix now + timeout], and a
    lease computed later never ends earlier. *)
Theorem lease_calculator (ms ms' t : Z) :
  ms <= ms' ->
  expires_at ms t = unix ms + t /\ expires_at ms t <= expires_at ms' t.
Proof. intros Hle. rewrite !expires_at_spec. pose proof (unix_mono ms ms' Hle). lia. Qed.

Lemma lease_calculator_witness :
  (500 <= 1500) /\ expires_at 500 10 = unix 500 + 10 /\ expires_at 500 10 <= expires_at 1500 10.
Proof. split; [lia | apply (lease_calculator 500 1500 10); lia]. Defined.
