(* ===== verification/Store.v ===== *)
(** * The store: the interface the lock needs, and the Redis commands

    [src/index.js] talks to Redis through four commands: SETNX (line
    50), GET (line 59), GETSET (line 74) and DEL (line 98).  Redis is not
    part of the repository: it is modelled here from the spec's section
    6 as a string-to-string map behind the type class [KVStore], whose
    laws are all the engine's proofs use; [gmap string string] is its
    instance.  [exec_cmd] is Redis's atomic execution of one command
    with the reply node_redis hands to the callback (integers for SETNX
    and DEL, a string or [null] for GET and GETSET). *)

From S2P Require Import Prelude JsValue.

(** ** The store interface *)

Class KVStore (S : Type) := {
  kv_empty : S;
  kv_get : S -> string -> option string;
  kv_put : S -> string -> string -> S;
  kv_del : S -> string -> S;
  kv_get_empty k : kv_get kv_empty k = None;
  kv_get_put_eq s k v : kv_get (kv_put s k v) k = Some v;
  kv_get_put_ne s k k' v : k <> k' -> kv_get (kv_put s k v) k' = kv_get s k';
  kv_get_del_eq s k : kv_get (kv_del s k) k = None;
  kv_get_del_ne s k k' : k <> k' -> kv_get (kv_del s k) k' = kv_get s k'
}.

#[export] Hint Rewrite @kv_get_empty @kv_get_put_eq @kv_get_del_eq : locksmith_rw.

#[export] Program Instance gmap_kvstore : KVStore (gmap string string) := {
  kv_empty := ∅;
  kv_get s k := s !! k;
  kv_put s k v := <[k := v]> s;
  kv_del s k := delete k s
}.
Next Obligation. intros. apply lookup_empty. Qed.
Next Obligation. intros. apply lookup_insert_eq. Qed.
Next Obligation. intros. by apply lookup_insert_ne. Qed.
Next Obligation. intros. apply lookup_delete_eq. Qed.
Next Obligation. intros. by apply lookup_delete_ne. Qed.

(** ** Redis commands *)

Inductive cmd :=
| CSetnx (k v : string)
| CGet (k : string)
| CGetset (k v : string)
| CDel (k : string).

Definition cmd_key (c : cmd) : string :=
  match c with CSetnx k _ | CGet k | CGetset k _ | CDel k => k end.

(** A bulk reply: the stored string, or [null] for an absent key. *)
Definition bulk (o : option string) : jsval :=
  match o with Some v => JStr v | None => JNull end.

Section Commands.
Context {S : Type} `{KVStore S}.

(** Redis's atomic execution of one command: the new store and the
    reply. *)
Definition exec_cmd (c : cmd) (s : S) : S * jsval :=
  match c with
  | CSetnx k v =>
      match kv_get s k with
      | Some _ => (s, JNum 0)
      | None => (kv_put s k v, JNum 1)
      end
  | CGet k => (s, bulk (kv_get s k))
  | CGetset k v => (kv_put s k v, bulk (kv_get s k))
  | CDel k =>
      match kv_get s k with
      | Some _ => (kv_del s k, JNum 1)
      | None => (s, JNum 0)
      end
  end.

(** Two stores are equivalent when they answer every read alike. *)
Definition kv_equiv (s1 s2 : S) : Prop := forall k, kv_get s1 k = kv_get s2 k.

#[export] Instance kv_equiv_equivalence : Equivalence kv_equiv.
Proof. split; repeat intro; congruence. Qed.

#[export] Instance kv_get_proper : Proper (kv_equiv ==> eq ==> eq) kv_get.
Proof. intros s1 s2 Hs k ? <-. apply Hs. Qed.

Lemma kv_get_put (s : S) k k' v :
  kv_get (kv_put s k v) k' = if decide (k = k') then Some v else kv_get s k'.
Proof. case_decide; subst; auto using kv_get_put_eq, kv_get_put_ne. Qed.

Lemma kv_get_del (s : S) k k' :
  kv_get (kv_del s k) k' = if decide (k = k') then None else kv_get s k'.
Proof. case_decide; subst; auto using kv_get_del_eq, kv_get_del_ne. Qed.

#[export] Instance kv_put_proper : Proper (kv_equiv ==> eq ==> eq ==> kv_equiv) kv_put.
Proof. intros s1 s2 Hs k ? <- v ? <- k'. rewrite !kv_get_put. by rewrite Hs. Qed.

#[export] Instance kv_del_proper : Proper (kv_equiv ==> eq ==> kv_equiv) kv_del.
Proof. intros s1 s2 Hs k ? <- k'. rewrite !kv_get_del. by rewrite Hs. Qed.

(** Redis commands only observe the store through reads: equivalent
    stores give the same reply and equivalent results. *)
#[export] Instance exec_cmd_proper :
  Proper (eq ==> kv_equiv ==> prod_relation kv_equiv eq) exec_cmd.
Proof.
  intros c ? <- s1 s2 Hs.
  destruct c; simpl; rewrite ?Hs; repeat case_match; split; simpl;
    try done; try (by rewrite Hs); by f_equiv.
Qed.

(** A command touches only its own key. *)
Lemma exec_cmd_frame (c : cmd) (s : S) k :
  cmd_key c <> k -> kv_get (exec_cmd c s).1 k = kv_get s k.
Proof.
  intros Hk. destruct c; simpl in *; repeat case_match; simpl;
    auto using kv_get_put_ne, kv_get_del_ne.
Qed.

(** The store holds only integers written as [String(e)]. *)
Definition numeric_store (s : S) : Prop :=
  forall k v, kv_get s k = Some v -> exists e, v = number_to_string e.

Definition cmd_numeric (c : cmd) : Prop :=
  match c with
  | CSetnx _ v | CGetset _ v => exists e, v = number_to_string e
  | _ => True
  end.

Lemma numeric_store_empty : numeric_store kv_empty.
Proof. intros k v. by rewrite kv_get_empty. Qed.

Lemma exec_cmd_numeric (c : cmd) (s : S) :
  cmd_numeric c -> numeric_store s -> numeric_store (exec_cmd c s).1.
Proof.
  intros Hc Hs k v. destruct c; cbn [exec_cmd cmd_numeric fst] in *; repeat case_match; simpl;
    rewrite ?kv_get_put, ?kv_get_del; repeat case_decide; naive_solver.
Qed.
End Commands.
