(* ===== verification/Config.v ===== *)
(** * The constructor [Locksmith(options)] (lines 10-34)

    The constructor reads the caller's options with JavaScript's [||]:
    a missing option, and also a falsy one ([0], [""], [null], [NaN]),
    takes the default.  It deletes [host], [port], [prefix] and
    [timeout] from the caller's object and passes what is left to
    [redis.createClient], unless the caller supplied [redisClient]
    ([redis_client] records which client is kept).  The connection
    itself is not modelled.  The configuration keeps the prefix, the
    lease timeout and the retry budget. *)

From S2P Require Import Prelude JsValue.

(** The caller's options object.  [timeout] and [retries] are numbers
    or absent ([None]); the prefix may be any value, as [+] converts it
    to a string at line 46. *)
Record options := mk_options {
  opt_host : jsval;
  opt_port : jsval;
  opt_prefix : jsval;
  opt_timeout : option Z;
  opt_retries : option Z;
  opt_redisClient : bool
}.

(** The fields of a [Locksmith] that the lock operations read. *)
Record config := mk_config {
  cfg_prefix : string;
  cfg_timeout : Z;
  cfg_retries : Z
}.

(** [options.x || d] for a number option. *)
Definition num_or (o : option Z) (d : Z) : Z :=
  match o with
  | Some z => if truthy (JNum z) then z else d
  | None => d
  end.

Definition empty_options : options :=
  mk_options JUndefined JUndefined JUndefined None None false.

(** The constructor, lines 13-18 and 31-33. *)
Definition Locksmith (o : option options) : config :=
  let o := match o with Some o => o | None => empty_options end in
  mk_config (to_js_string (js_or (opt_prefix o) (JStr "__locksmith:")))
            (num_or (opt_timeout o) 10)
            (num_or (opt_retries o) 100).

(** Lines 20-23: the object left to [redis.createClient] after the
    [delete]s; [retries] is not deleted. *)
Definition client_options (o : options) : options :=
  mk_options JUndefined JUndefined JUndefined None (opt_retries o) (opt_redisClient o).

(** [new Locksmith(o)] on the caller's object [o] (lines 13-28): the
    configuration, and the object as the caller holds it afterwards.
    JavaScript passes the object by reference, so the [delete]s of lines
    20-23 act on the caller's own object, the one [redis.createClient]
    then receives. *)
Definition Locksmith_new (o : options) : config * options :=
  (Locksmith (Some o), client_options o).

(** The Redis client a [Locksmith] keeps in [_redisClient]. *)
Inductive client :=
| GivenClient                                    (** [options.redisClient] *)
| CreatedClient (host port : jsval) (rest : options).
    (** [redis.createClient(host, port, options)] *)

(** Lines 13-15 and 25-29: the caller's [redisClient] when it is truthy,
    otherwise a new client for [options.host || null] and
    [options.port || null].  Host and port are read before the
    [delete]s; the object passed along is the one left after them. *)
Definition redis_client (o : option options) : client :=
  let o := match o with Some o => o | None => empty_options end in
  if opt_redisClient o then GivenClient
  else CreatedClient (js_or (opt_host o) JNull) (js_or (opt_port o) JNull) (client_options o).

(** ** What the constructor produces *)

(** Without options, the configuration is the documented defaults. *)
Lemma Locksmith_defaults : Locksmith None = mk_config "__locksmith:" 10 100.
Proof. reflexivity. Qed.

Lemma num_or_spec (o : option Z) (d : Z) :
  num_or o d = match o with Some z => if z =? 0 then d else z | None => d end.
Proof. destruct o as [z|]; simpl; [by destruct (z =? 0) | done]. Qed.

(** *** C17. A number option is used as given unless it is [0] or absent:
    [retries: 0] and [timeout: 0] silently become the defaults [100]
    and [10], so neither can be configured to zero. *)
Lemma Locksmith_numbers (o : options) :
  cfg_timeout (Locksmith (Some o)) =
    match opt_timeout o with Some t => if t =? 0 then 10 else t | None => 10 end /\
  cfg_retries (Locksmith (Some o)) =
    match opt_retries o with Some n => if n =? 0 then 100 else n | None => 100 end /\
  cfg_timeout (Locksmith (Some o)) <> 0 /\ cfg_retries (Locksmith (Some o)) <> 0.
Proof.
  simpl. rewrite !num_or_spec.
  destruct (opt_timeout o) as [t|], (opt_retries o) as [n|]; simpl;
    repeat case_match; rewrite ?Z.eqb_eq, ?Z.eqb_neq in *; split_and!; lia.
Qed.

(** A nonempty string prefix is used as given. *)
Lemma Locksmith_prefix (o : options) (p : string) :
  opt_prefix o = JStr p -> p <> "" -> cfg_prefix (Locksmith (Some o)) = p.
Proof.
  intros Hp Hne. simpl. rewrite Hp. unfold js_or. simpl.
  destruct (String.eqb_spec p ""); [done | reflexivity].
Qed.

(** *** C21. The constructor consumes its options: a caller who builds a
    second [Locksmith] from the same object gets the default prefix and
    timeout, whatever the object held, and the same retry budget; the
    object no longer changes after that. *)
Lemma Locksmith_reuse (o : options) :
  let '(c1, o1) := Locksmith_new o in
  let '(c2, o2) := Locksmith_new o1 in
  c2 = mk_config "__locksmith:" 10 (cfg_retries c1) /\ o2 = o1.
Proof. split; reflexivity. Qed.
