(* ===== verification/Acquire.v ===== *)
(** * One lock request: [Locksmith.prototype.lock] and [_release]

    [lock(key, cb)] (lines 36-89) keeps, in its closure, the key, the
    retry counter [retries] and the lease [expires] it last computed.
    Its work is split over callbacks: [aquire] sends SETNX,
    [handleSetnx] either hands the lock over or sends GET, [handleGet]
    either retries or sends GETSET, [handleGetSet] either hands the lock
    over or retries, and [retry] re-arms [aquire] after one second or
    gives up.  The handle given to the caller is [_release] bound to the
    key and the lease (lines 91-105), whose DEL callback only logs.

    A request is the record [req] of the closure variables plus its
    program point [pc]: the command in flight, the reply waiting for its
    callback, the armed timer, or the outcome reported to [cb].  Each
    function of the source is one definition below, from the request
    and the current millisecond time to the next request. *)

From S2P Require Import Prelude JsNumber JsValue Clock Store Config.

Inductive lock_error :=
| StoreError                       (** [cb(err)] with the client's error *)
| MaxRetriesError (key : string).  (** [cb(new Error('maximum retries hit ...' + key))] *)

(** What [console.error] reports (lines 99 and 103). *)
Inductive diag :=
| DiagDelError
| DiagLateRelease (key : string).

(** The [(err, response)] pair a node_redis callback receives. *)
Inductive reply :=
| RErr
| ROk (v : jsval).

Inductive pc :=
| PPending (c : cmd)            (** [c] is sent, its reply has not arrived *)
| PReady (c : cmd) (r : reply)  (** the reply arrived, the callback has not run *)
| PTimer (due : Z)              (** [setTimeout(aquire, 1000)] fires at [due] ms *)
| PHolding                      (** [cb(null, release)]: the caller holds the lock *)
| PReleased                     (** the caller called its release handle *)
| PFailed (e : lock_error).     (** [cb(err)] *)

Record req := mk_req {
  rq_cfg : config;      (** [_this] *)
  rq_key : string;      (** [key] *)
  rq_retries : Z;       (** [retries] *)
  rq_expires : Z;       (** [expires] *)
  rq_pc : pc
}.

Definition set_pc (r : req) (p : pc) : req :=
  mk_req (rq_cfg r) (rq_key r) (rq_retries r) (rq_expires r) p.

(** [this._prefix + key] (lines 46 and 92). *)
Definition fullKey (cfg : config) (key : string) : string :=
  String.append (cfg_prefix cfg) key.

Definition rq_fullKey (r : req) : string := fullKey (rq_cfg r) (rq_key r).

(** [aquire] (lines 48-50): a fresh lease, then SETNX. *)
Definition aquire (now : Z) (r : req) : req :=
  let e := expires_at now (cfg_timeout (rq_cfg r)) in
  mk_req (rq_cfg r) (rq_key r) (rq_retries r) e
         (PPending (CSetnx (rq_fullKey r) (number_to_string e))).

(** [lock] (lines 36-47 and 88): a request with [retries = 0]; called
    with a callback only ([None]), the key is [''].  [aquire] runs at
    once. *)
Definition lock (cfg : config) (key : option string) (now : Z) : req :=
  let k := match key with Some k => k | None => "" end in
  aquire now (mk_req cfg k 0 0 (PTimer now)).

(** [retry] (lines 62-67): [retries++ > _this._retries] compares the
    counter before its increment. *)
Definition retry (now : Z) (r : req) : req :=
  let p := if cfg_retries (rq_cfg r) <? rq_retries r
           then PFailed (MaxRetriesError (rq_key r))
           else PTimer (now + retry_delay) in
  mk_req (rq_cfg r) (rq_key r) (rq_retries r + 1) (rq_expires r) p.

(** [handleSetnx] (lines 50-59): [response === 1] hands the lock over. *)
Definition handleSetnx (r : req) (rep : reply) : req :=
  match rep with
  | RErr => set_pc r (PFailed StoreError)
  | ROk (JNum 1) => set_pc r PHolding
  | ROk _ => set_pc r (PPending (CGet (rq_fullKey r)))
  end.

(** [handleGet] (lines 59-86): an unexpired lease means retry,
    otherwise a fresh lease is computed and GETSET sent. *)
Definition handleGet (now : Z) (r : req) (rep : reply) : req :=
  match rep with
  | RErr => set_pc r (PFailed StoreError)
  | ROk keyExpires =>
      if js_lt_num (unix now) keyExpires then retry now r
      else
        let e := expires_at now (cfg_timeout (rq_cfg r)) in
        mk_req (rq_cfg r) (rq_key r) (rq_retries r) e
               (PPending (CGetset (rq_fullKey r) (number_to_string e)))
  end.

(** [handleGetSet] (lines 74-84): the previous value decides. *)
Definition handleGetSet (now : Z) (r : req) (rep : reply) : req :=
  match rep with
  | RErr => set_pc r (PFailed StoreError)
  | ROk keyExpires =>
      if js_lt_num (unix now) keyExpires then retry now r
      else set_pc r PHolding
  end.

(** [_release] (lines 91-105), called by the holder: DEL only while the
    lease bound into the handle is running. *)
Definition _release (now : Z) (r : req) : req * list diag :=
  if unix now <? rq_expires r
  then (set_pc r (PPending (CDel (rq_fullKey r))), [])
  else (set_pc r PReleased, [DiagLateRelease (rq_key r)]).

(** [handleDel] (lines 98-100): an error is only logged. *)
Definition handleDel (r : req) (rep : reply) : req * list diag :=
  match rep with
  | RErr => (set_pc r PReleased, [DiagDelError])
  | ROk _ => (set_pc r PReleased, [])
  end.

(** The callback registered with each command. *)
Definition callback (now : Z) (r : req) (c : cmd) (rep : reply) : req * list diag :=
  match c with
  | CSetnx _ _ => (handleSetnx r rep, [])
  | CGet _ => (handleGet now r rep, [])
  | CGetset _ _ => (handleGetSet now r rep, [])
  | CDel _ => handleDel r rep
  end.

(** ** A request's commands are on its own key and carry its lease *)

Definition cmd_wf (r : req) (c : cmd) : Prop :=
  match c with
  | CSetnx k v | CGetset k v => k = rq_fullKey r /\ v = number_to_string (rq_expires r)
  | CGet k | CDel k => k = rq_fullKey r
  end.

Definition req_wf (r : req) : Prop :=
  match rq_pc r with
  | PPending c | PReady c _ => cmd_wf r c
  | _ => True
  end.

(** Whether a request has a command in flight or a callback pending. *)
Definition busy (p : pc) : bool :=
  match p with PPending _ | PReady _ _ => true | _ => false end.

Lemma retry_wf now r : req_wf (retry now r).
Proof. unfold retry, req_wf. simpl. repeat destruct_if; done. Qed.

Lemma retry_not_holding now r : rq_pc (retry now r) <> PHolding.
Proof. unfold retry. simpl. repeat destruct_if; done. Qed.

Lemma retry_not_pending now r c : rq_pc (retry now r) <> PPending c.
Proof. unfold retry. simpl. repeat destruct_if; done. Qed.

#[export] Hint Resolve retry_wf retry_not_holding retry_not_pending : locksmith.

Lemma aquire_wf now r : req_wf (aquire now r).
Proof. done. Qed.

(** Destruct the reply and the comparison of a handler, and close the
    branches with the [retry] lemmas. *)
Ltac handler_cases :=
  repeat match goal with
  | rep : reply |- _ => destruct rep
  | |- context [match ?v with JUndefined => _ | _ => _ end] => destruct v
  | |- context [match ?z with Z0 => _ | _ => _ end] => destruct z
  | |- context [match ?p with xH => _ | _ => _ end] => destruct p
  | |- context [if js_lt_num ?n ?v then _ else _] => destruct (js_lt_num n v)
  end; simpl; eauto with locksmith.

(** *** Every handler keeps a request well formed. *)
Lemma callback_wf now r c rep :
  req_wf (callback now r c rep).1.
Proof.
  destruct c; simpl;
    [unfold handleSetnx | unfold handleGet | unfold handleGetSet | unfold handleDel];
    handler_cases; done.
Qed.

Lemma release_wf now r : req_wf (_release now r).1.
Proof. unfold _release, req_wf. repeat destruct_if; done. Qed.

(** ** Behaviour of each handler *)

(** C12. SETNX hands the lock over exactly when Redis answered [1]. *)
Lemma handleSetnx_holding r rep :
  rq_pc (handleSetnx r rep) = PHolding <-> rep = ROk (JNum 1).
Proof.
  unfold handleSetnx. split; [| by intros ->].
  repeat case_match; simpl; congruence.
Qed.

(** C9. A takeover through GETSET succeeds exactly when the value it
    replaced had expired at the time of the callback. *)
Lemma handleGetSet_holding now r v :
  rq_pc (handleGetSet now r (ROk v)) = PHolding <-> js_lt_num (unix now) v = false.
Proof.
  unfold handleGetSet. destruct (js_lt_num (unix now) v); simpl.
  - split; [intros H; by apply retry_not_holding in H | done].
  - done.
Qed.


(** C11. An expired lease is taken over with a GETSET of a fresh lease
    [unix now + timeout] on the request's key. *)
Lemma handleGet_expired_getset now r v :
  js_lt_num (unix now) v = false ->
  rq_pc (handleGet now r (ROk v)) =
    PPending (CGetset (rq_fullKey r)
                      (number_to_string (unix now + cfg_timeout (rq_cfg r)))).
Proof. intros Hlt. unfold handleGet. rewrite Hlt. simpl. by rewrite expires_at_spec. Qed.

(** *** C31. Values the code never writes: a value that [ToNumber]
    reads as [NaN] (["locked"], ["12abc"]) counts as an expired lease,
    so GET answers it with a GETSET takeover and GETSET's callback
    grants the lock at once; a value that reads as [+Infinity]
    (["Infinity"]) never expires, so both callbacks go back to
    [retry]. *)
Theorem foreign_lease_value now r s :
  (str_to_number s = NNaN ->
     rq_pc (handleGet now r (ROk (JStr s))) =
       PPending (CGetset (rq_fullKey r) (number_to_string (unix now + cfg_timeout (rq_cfg r)))) /\
     rq_pc (handleGetSet now r (ROk (JStr s))) = PHolding) /\
  (str_to_number s = NInf false ->
     handleGet now r (ROk (JStr s)) = retry now r /\
     handleGetSet now r (ROk (JStr s)) = retry now r).
Proof.
  unfold handleGet, handleGetSet, js_lt_num. cbn [to_number].
  split; intros Hs; rewrite Hs; cbn; [by rewrite expires_at_spec | done].
Qed.

(** C13. [retry] counts one more attempt, and gives up exactly when the
    counter before the increment exceeds the budget; otherwise [aquire]
    runs again [retry_delay] milliseconds later. *)
Lemma retry_spec now r :
  rq_retries (retry now r) = rq_retries r + 1 /\
  (rq_pc (retry now r) = PFailed (MaxRetriesError (rq_key r)) <-> cfg_retries (rq_cfg r) < rq_retries r) /\
  (rq_pc (retry now r) = PTimer (now + retry_delay) <-> rq_retries r <= cfg_retries (rq_cfg r)).
Proof. unfold retry. simpl. split; [done |]. case_ltb; split; split; intros; simplify_lock. Qed.

(** C14. A store error in any callback of the acquisition ends the request
    with [StoreError]: no retry follows. *)
Lemma acquire_store_error now r c :
  match c with CDel _ => False | _ => True end ->
  rq_pc (callback now r c RErr).1 = PFailed StoreError.
Proof. by destruct c. Qed.

(** ** The release guard *)

(** A release after the lease has run out sends no command and logs a
    late release: the store is left to whoever took the key over. *)
Lemma release_late now r :
  rq_expires r <= unix now ->
  _release now r = (set_pc r PReleased, [DiagLateRelease (rq_key r)]).
Proof. intros H. unfold _release. repeat case_ltb; try lia; done. Qed.

(** C15. A release while the lease runs deletes the request's own key. *)
Lemma release_timely now r :
  unix now < rq_expires r ->
  _release now r = (set_pc r (PPending (CDel (rq_fullKey r))), []).
Proof. intros H. unfold _release. case_ltb; [done | lia]. Qed.

(** ** Witnesses on concrete requests *)

Definition witness_cfg : config := mk_config "p:" 10 3.


Lemma handleGet_expired_getset_witness :
  js_lt_num (unix 5000) (JStr "2") = false /\
  rq_pc (handleGet 5000 (mk_req witness_cfg "x" 0 10 (PPending (CGet "p:x"))) (ROk (JStr "2")))
    = PPending (CGetset "p:x" (number_to_string (unix 5000 + 10))).
Proof.
  split; [reflexivity |].
  apply (handleGet_expired_getset 5000 (mk_req witness_cfg "x" 0 10 (PPending (CGet "p:x")))
           (JStr "2")).
  reflexivity.
Defined.

Lemma foreign_lease_value_witness :
  str_to_number "locked" = NNaN /\
  rq_pc (handleGetSet 0 (mk_req witness_cfg "x" 0 10 (PPending (CGetset "p:x" "10")))
           (ROk (JStr "locked"))) = PHolding.
Proof.
  split; [reflexivity |].
  apply (proj1 (foreign_lease_value 0 (mk_req witness_cfg "x" 0 10 (PPending (CGetset "p:x" "10")))
                  "locked")).
  reflexivity.
Defined.

Lemma acquire_store_error_witness :
  rq_pc (callback 0 (mk_req witness_cfg "x" 0 10 (PPending (CGetset "p:x" "10")))
                  (CGetset "p:x" "10") RErr).1 = PFailed StoreError.
Proof. apply (acquire_store_error 0 _ (CGetset "p:x" "10")). simpl. exact I. Defined.

Lemma release_timely_witness :
  unix 0 < 10 /\
  _release 0 (mk_req witness_cfg "x" 0 10 PHolding) =
    (set_pc (mk_req witness_cfg "x" 0 10 PHolding) (PPending (CDel "p:x")), []).
Proof.
  split; [vm_compute; reflexivity |].
  apply (release_timely 0 (mk_req witness_cfg "x" 0 10 PHolding)). vm_compute. reflexivity.
Defined.
