(* ===== verification/System.v ===== *)
(** * The concurrent system: requests, the store and the clock

    Many [lock] requests, from one or several processes sharing a Redis
    server, run at once.  Node runs each callback to completion, and
    Redis executes each command atomically, but between a command being
    sent and its callback running any other request may act, and the
    clock moves.  A [world] holds the millisecond clock, the store, every
    request (by its index in [w_reqs]) and the [console.error] log.
    [step] is one atomic event:

    - the clock advances;
    - a caller calls [lock] ([Acquire.lock]);
    - the server executes a request's command in flight ([exec_cmd]),
      or the command fails, before or after taking effect;
    - the callback of an arrived reply runs ([Acquire.callback]);
    - an armed retry timer fires ([Acquire.aquire]);
    - a holder calls its release handle ([Acquire._release]).

    [step_fn] is an executable function of an [action] whose steps are
    steps of the relation, and [run] plays a schedule of actions.  The
    theorems: invariants of every reachable world (well-formed commands
    and a numeric store; the lease written reads back as the lease the
    handle binds), what single steps do (late release, GETSET loser,
    lost SETNX reply), and three concrete schedules that break mutual
    exclusion ([Race], a GETSET race; [DelayedDel], a DEL landing after
    a takeover; [LateCallback], a GETSET loser's late callback).  The
    retry counter's bound ([reachable_retries_ok]) serves the
    termination proof. *)

From S2P Require Import Prelude JsValue Clock Store Config Acquire.

Record world (S : Type) := mk_world {
  w_now : Z;
  w_store : S;
  w_reqs : list req;
  w_log : list diag
}.
Arguments mk_world {S}.
Arguments w_now {S}.
Arguments w_store {S}.
Arguments w_reqs {S}.
Arguments w_log {S}.

Inductive action :=
| ATick (d : Z)
| ALock (cfg : config) (key : option string)
| AExec (i : nat)
| AFail (i : nat)
| ALost (i : nat)
| ACallback (i : nat)
| ATimer (i : nat)
| ARelease (i : nat).

Section System.
Context {S : Type} `{KVStore S}.
Implicit Types (w : world S) (r : req).

Definition upd_req w (i : nat) r (ds : list diag) (s : S) : world S :=
  mk_world (w_now w) s (<[i := r]> (w_reqs w)) (w_log w ++ ds).

Inductive step : world S -> world S -> Prop :=
| step_tick w d :
    0 < d ->
    step w (mk_world (w_now w + d) (w_store w) (w_reqs w) (w_log w))
| step_lock w cfg key :
    step w (mk_world (w_now w) (w_store w)
                     (w_reqs w ++ [lock cfg key (w_now w)]) (w_log w))
| step_exec w i r c s' v :
    w_reqs w !! i = Some r -> rq_pc r = PPending c ->
    exec_cmd c (w_store w) = (s', v) ->
    step w (upd_req w i (set_pc r (PReady c (ROk v))) [] s')
| step_fail w i r c :
    w_reqs w !! i = Some r -> rq_pc r = PPending c ->
    step w (upd_req w i (set_pc r (PReady c RErr)) [] (w_store w))
| step_lost w i r c :
    w_reqs w !! i = Some r -> rq_pc r = PPending c ->
    step w (upd_req w i (set_pc r (PReady c RErr)) [] (exec_cmd c (w_store w)).1)
| step_callback w i r c rep r' ds :
    w_reqs w !! i = Some r -> rq_pc r = PReady c rep ->
    callback (w_now w) r c rep = (r', ds) ->
    step w (upd_req w i r' ds (w_store w))
| step_timer w i r due :
    w_reqs w !! i = Some r -> rq_pc r = PTimer due -> due <= w_now w ->
    step w (upd_req w i (aquire (w_now w) r) [] (w_store w))
| step_release w i r r' ds :
    w_reqs w !! i = Some r -> rq_pc r = PHolding ->
    _release (w_now w) r = (r', ds) ->
    step w (upd_req w i r' ds (w_store w)).

(** The scheduler: the event an [action] names, when it is enabled. *)
Definition step_fn (a : action) w : option (world S) :=
  match a with
  | ATick d => if 0 <? d then Some (mk_world (w_now w + d) (w_store w) (w_reqs w) (w_log w))
               else None
  | ALock cfg key =>
      Some (mk_world (w_now w) (w_store w) (w_reqs w ++ [lock cfg key (w_now w)]) (w_log w))
  | AExec i =>
      match w_reqs w !! i with
      | Some r =>
          match rq_pc r with
          | PPending c =>
              let '(s', v) := exec_cmd c (w_store w) in
              Some (upd_req w i (set_pc r (PReady c (ROk v))) [] s')
          | _ => None
          end
      | None => None
      end
  | AFail i =>
      match w_reqs w !! i with
      | Some r =>
          match rq_pc r with
          | PPending c => Some (upd_req w i (set_pc r (PReady c RErr)) [] (w_store w))
          | _ => None
          end
      | None => None
      end
  | ALost i =>
      match w_reqs w !! i with
      | Some r =>
          match rq_pc r with
          | PPending c =>
              Some (upd_req w i (set_pc r (PReady c RErr)) [] (exec_cmd c (w_store w)).1)
          | _ => None
          end
      | None => None
      end
  | ACallback i =>
      match w_reqs w !! i with
      | Some r =>
          match rq_pc r with
          | PReady c rep =>
              let '(r', ds) := callback (w_now w) r c rep in
              Some (upd_req w i r' ds (w_store w))
          | _ => None
          end
      | None => None
      end
  | ATimer i =>
      match w_reqs w !! i with
      | Some r =>
          match rq_pc r with
          | PTimer due =>
              if due <=? w_now w then Some (upd_req w i (aquire (w_now w) r) [] (w_store w))
              else None
          | _ => None
          end
      | None => None
      end
  | ARelease i =>
      match w_reqs w !! i with
      | Some r =>
          match rq_pc r with
          | PHolding =>
              let '(r', ds) := _release (w_now w) r in
              Some (upd_req w i r' ds (w_store w))
          | _ => None
          end
      | None => None
      end
  end.

Fixpoint run (acts : list action) w : option (world S) :=
  match acts with
  | [] => Some w
  | a :: acts => match step_fn a w with Some w' => run acts w' | None => None end
  end.

(** ** Reachable worlds and mutual exclusion *)

Definition init_world : world S := mk_world 0 kv_empty [] [].

Definition reachable w : Prop := star step init_world w.

(** Every request's command is on its own key and carries its lease,
    and the store holds only leases written by the code. *)
Definition world_inv w : Prop :=
  Forall req_wf (w_reqs w) /\ numeric_store (w_store w).

(** Request [i] has been given the lock on store key [k] and its lease
    is still running. *)
Definition holds_unexpired w (i : nat) (k : string) : Prop :=
  exists r, w_reqs w !! i = Some r /\ rq_pc r = PHolding /\
            rq_fullKey r = k /\ unix (w_now w) < rq_expires r.

Definition exclusive w : Prop :=
  forall k i j, holds_unexpired w i k -> holds_unexpired w j k -> i = j.

(** The retry counter of a request: within the budget, or one past it
    exactly when the request gave up with [MaxRetriesError]. *)
Definition within_budget r : Prop :=
  0 <= rq_retries r <= Z.max 0 (cfg_retries (rq_cfg r) + 1).

Definition retries_ok r : Prop :=
  within_budget r \/
  (rq_pc r = PFailed (MaxRetriesError (rq_key r)) /\
   rq_retries r = Z.max 0 (cfg_retries (rq_cfg r) + 1) + 1).

(** ** The scheduler is the step relation *)

Lemma step_fn_sound a w w' : step_fn a w = Some w' -> step w w'.
Proof.
  intros Hfn. destruct a; simpl in Hfn; repeat case_match; simplify_eq;
    econstructor; eauto; lia.
Qed.

Lemma run_sound acts w w' : run acts w = Some w' -> star step w w'.
Proof.
  revert w. induction acts as [|a acts IH]; intros w Hrun; simpl in Hrun.
  - simplify_eq. constructor.
  - destruct (step_fn a w) as [w1|] eqn:Hfn; [| done].
    apply (star_step w w1 w'); [by apply (step_fn_sound a) | auto].
Qed.

(** ** Invariants of every reachable world *)



Lemma cmd_wf_numeric r c : cmd_wf r c -> cmd_numeric c.
Proof. destruct c; simpl; [intros [_ ->] | done | intros [_ ->] | done]; eauto. Qed.

Lemma req_wf_pending r c : req_wf r -> rq_pc r = PPending c -> cmd_numeric c.
Proof. unfold req_wf. intros Hwf Hp. rewrite Hp in Hwf. by eapply cmd_wf_numeric. Qed.

Lemma req_wf_set_ready r c rep :
  req_wf r -> rq_pc r = PPending c -> req_wf (set_pc r (PReady c rep)).
Proof. unfold req_wf. intros Hwf Hp. by rewrite Hp in Hwf. Qed.

Lemma req_wf_pending_key r c : req_wf r -> rq_pc r = PPending c -> cmd_key c = rq_fullKey r.
Proof. unfold req_wf. intros Hwf Hp. rewrite Hp in Hwf.
  destruct c; simpl in *; [apply Hwf | done | apply Hwf | done].
Qed.

(** A command in flight for request [r] leaves every other key alone. *)
Lemma exec_pending_frame r c s k :
  req_wf r -> rq_pc r = PPending c -> rq_fullKey r <> k ->
  kv_get (exec_cmd c s).1 k = kv_get s k.
Proof. intros Hwf Hp Hk. apply exec_cmd_frame. by erewrite req_wf_pending_key. Qed.

Lemma upd_req_inv w i r ds s :
  world_inv w -> req_wf r -> numeric_store s -> world_inv (upd_req w i r ds s).
Proof. intros [Hr _] Hwf Hs. split; [by apply Forall_insert | done]. Qed.

Lemma step_inv w w' : world_inv w -> step w w' -> world_inv w'.
Proof.
  intros Hinv Hstep. pose proof Hinv as [Hr Hs].
  destruct Hstep as [w d Hd|w cfg key|w i r c s' v Hi Hp He|w i r c Hi Hp|w i r c Hi Hp
                    |w i r c rep r' ds Hi Hp Hc|w i r due Hi Hp Hdue|w i r r' ds Hi Hp Hrel];
    try pose proof (Forall_lookup_1 _ _ _ _ Hr Hi) as Hwf.
  - done.
  - split; [apply Forall_app; split; [done | by constructor] | done].
  - apply upd_req_inv; [done | by apply req_wf_set_ready |].
    replace s' with (exec_cmd c (w_store w)).1 by by rewrite He.
    by eapply exec_cmd_numeric, Hs; eapply req_wf_pending.
  - by apply upd_req_inv; [| apply req_wf_set_ready |].
  - apply upd_req_inv; [done | by apply req_wf_set_ready |].
    by eapply exec_cmd_numeric, Hs; eapply req_wf_pending.
  - apply upd_req_inv; [done | | done].
    pose proof (callback_wf (w_now w) r c rep) as Hcb. by rewrite Hc in Hcb.
  - by apply upd_req_inv.
  - apply upd_req_inv; [done | | done].
    pose proof (release_wf (w_now w) r) as Hrw. by rewrite Hrel in Hrw.
Qed.

Lemma world_inv_init : world_inv init_world.
Proof. split; [constructor | apply numeric_store_empty]. Qed.

Lemma reachable_world_inv w : reachable w -> world_inv w.
Proof. intros Hr. exact (star_ind_inv step world_inv step_inv _ _ Hr world_inv_init). Qed.

(** *** C6. In every reachable world, each request's command targets its
    own key with its own lease, and every store value is a lease the
    code wrote, so [ToNumber] reads it back exactly. *)
Theorem reachable_inv w : reachable w -> world_inv w.
Proof.
  intros Hr. eapply (star_ind_inv step world_inv); [apply step_inv | exact Hr |].
  apply world_inv_init.
Qed.


(** ** The retry counter in the fine-grained system *)

Lemma retry_ok now r : within_budget r -> retries_ok (retry now r).
Proof.
  unfold retries_ok, within_budget, retry. intros Hb.
  case_match; cbn; rewrite ?Z.ltb_lt, ?Z.ltb_ge, ?Z.leb_le, ?Z.leb_gt in *;
    destruct (Z.le_gt_cases (rq_retries r + 1) (Z.max 0 (cfg_retries (rq_cfg r) + 1)));
    first [left; lia | right; split; [done | lia]].
Qed.

Lemma release_set_pc now r : exists p, (_release now r).1 = set_pc r p.
Proof. unfold _release. repeat case_match; eexists; reflexivity. Qed.

Lemma callback_ok now r c rep : within_budget r -> retries_ok (callback now r c rep).1.
Proof.
  intros Hb. destruct c; cbn;
    [unfold handleSetnx | unfold handleGet | unfold handleGetSet | unfold handleDel];
    repeat case_match; try (by apply retry_ok); by left.
Qed.

Lemma retries_ok_active r :
  retries_ok r -> (forall e, rq_pc r <> PFailed e) -> within_budget r.
Proof. intros [Hb | [Hp _]] Hna; [done | by destruct (Hna _ Hp)]. Qed.

Lemma step_retries w w' :
  Forall retries_ok (w_reqs w) -> step w w' -> Forall retries_ok (w_reqs w').
Proof.
  intros Hr Hstep.
  destruct Hstep as [w d Hd|w cfg key|w i r c s' v Hi Hp He|w i r c Hi Hp|w i r c Hi Hp
                    |w i r c rep r' ds Hi Hp Hc|w i r due Hi Hp Hdue|w i r r' ds Hi Hp Hrel];
    try (pose proof (retries_ok_active r (Forall_lookup_1 _ _ _ _ Hr Hi)) as Hb;
         rewrite Hp in Hb; specialize (Hb ltac:(done)));
    cbn [w_reqs upd_req]; try done.
  - apply Forall_app; split; [done |]. constructor; [| done].
    left. unfold within_budget, lock, aquire. cbn. lia.
  - by apply Forall_insert; [| left].
  - by apply Forall_insert; [| left].
  - by apply Forall_insert; [| left].
  - apply Forall_insert; [done |]. pose proof (callback_ok (w_now w) r c rep Hb) as Hok.
    by rewrite Hc in Hok.
  - by apply Forall_insert; [| left].
  - apply Forall_insert; [done |]. left.
    destruct (release_set_pc (w_now w) r) as [p' Hr']. rewrite Hrel in Hr'.
    simpl in Hr'. subst r'. exact Hb.
Qed.

Lemma reachable_retries_ok w : reachable w -> Forall retries_ok (w_reqs w).
Proof.
  intros Hreach. eapply (star_ind_inv step (fun w => Forall retries_ok (w_reqs w)));
    [apply step_retries | exact Hreach | constructor].
Qed.

(** ** The release guard in the system *)

(** *** C4. A release after the lease has run out leaves the store
    exactly as it was, ends the request, and logs a late release. *)
Theorem late_release_keeps_store w w' i r :
  w_reqs w !! i = Some r -> rq_pc r = PHolding -> rq_expires r <= unix (w_now w) ->
  step_fn (ARelease i) w = Some w' ->
  w_store w' = w_store w /\ w_reqs w' !! i = Some (set_pc r PReleased) /\
  w_log w' = w_log w ++ [DiagLateRelease (rq_key r)].
Proof.
  intros Hi Hp Hlate Hfn. simpl in Hfn. rewrite Hi, Hp in Hfn. unfold _release in Hfn.
  case_ltb; [lia |].
  simplify_eq. simpl. split_and!; [done | | done].
  apply list_lookup_insert_eq. by eapply lookup_lt_Some.
Qed.


(** *** C3. A GETSET that loses the race still writes: when the value it
    replaced is a running lease, the request retries, yet the store now
    holds the loser's lease instead of the winner's. *)
Theorem getset_loser_overwrites w w1 w2 i r e :
  w_reqs w !! i = Some r ->
  rq_pc r = PPending (CGetset (rq_fullKey r) (number_to_string (rq_expires r))) ->
  kv_get (w_store w) (rq_fullKey r) = Some (number_to_string e) ->
  unix (w_now w) < e ->
  step_fn (AExec i) w = Some w1 -> step_fn (ACallback i) w1 = Some w2 ->
  kv_get (w_store w2) (rq_fullKey r) = Some (number_to_string (rq_expires r)) /\
  exists r2, w_reqs w2 !! i = Some r2 /\ rq_pc r2 <> PHolding.
Proof.
  intros Hi Hp Hv Hlt H1 H2. simpl in H1. rewrite Hi, Hp in H1. simpl in H1.
  rewrite Hv in H1. simplify_eq. simpl in H2.
  rewrite list_lookup_insert_eq in H2 by (by eapply lookup_lt_Some). simpl in H2.
  rewrite js_lt_num_lease in H2. apply Z.ltb_lt in Hlt as Hb. rewrite Hb in H2.
  simplify_eq. simpl. split; [apply kv_get_put_eq |].
  eexists. split; [| apply retry_not_holding].
  rewrite list_insert_insert_eq. apply list_lookup_insert_eq.
  rewrite ?length_insert. by eapply lookup_lt_Some.
Qed.
(** ** A lost reply *)

(** *** C20. A SETNX that takes effect but whose reply is lost (the
    connection fails after Redis executed it) ends the request with
    [StoreError], while its lease stays in the store: the key is
    blocked until that lease runs out, with no request holding it. *)
Theorem lost_setnx_orphans_lease w w1 w2 i r :
  w_reqs w !! i = Some r ->
  rq_pc r = PPending (CSetnx (rq_fullKey r) (number_to_string (rq_expires r))) ->
  kv_get (w_store w) (rq_fullKey r) = None ->
  step_fn (ALost i) w = Some w1 -> step_fn (ACallback i) w1 = Some w2 ->
  kv_get (w_store w2) (rq_fullKey r) = Some (number_to_string (rq_expires r)) /\
  w_reqs w2 !! i = Some (set_pc r (PFailed StoreError)).
Proof.
  intros Hi Hp Hv H1 H2. simpl in H1. rewrite Hi, Hp in H1. simpl in H1.
  rewrite Hv in H1. simplify_eq. simpl in H2.
  rewrite list_lookup_insert_eq in H2 by (by eapply lookup_lt_Some). simpl in H2.
  simplify_eq. simpl. split; [apply kv_get_put_eq |].
  rewrite list_insert_insert_eq. apply list_lookup_insert_eq.
  by eapply lookup_lt_Some.
Qed.

End System.

(** ** The GETSET race, with one configuration

    Spec section 4.2 says the GETSET reply is "the sole race arbiter" and
    bounds double ownership to the window between two racing GETSETs.
    The loser's GETSET has nevertheless written its own lease, which can
    be older than the winner's when the loser computed it earlier.  The
    schedule below, with the test's configuration ([timeout: 2]) for
    every request (requests 1 and 2 in two processes, so that their
    GETSETs reach Redis in either order):

    - request 0 takes "asdf" at second 0 with lease 2 and keeps it;
    - at second 2, requests 1 and 2 find lease 2 expired; request 2
      computes lease 4 and sends GETSET;
    - at second 3 request 1 computes lease 5; its GETSET lands first and
      returns "2": request 1 holds the lock until second 5;
    - request 2's GETSET lands next, writes "4" and returns "5": request
      2 retries, but the store now says the lock expires at second 4;
    - at second 4 request 3 reads "4", takes the lock over with lease 6,
      while request 1's lease runs until second 5. *)
Module Race.
Definition test_cfg : config :=
  Locksmith (Some (mk_options JUndefined JUndefined JUndefined (Some 2) None false)).

Definition key : option string := Some "asdf".

Definition schedule : list action :=
  [ ALock test_cfg key; AExec 0; ACallback 0;
    ATick 2000;
    ALock test_cfg key; AExec 1; ACallback 1; AExec 1;
    ALock test_cfg key; AExec 2; ACallback 2; AExec 2;
    ACallback 2;
    ATick 1000;
    ACallback 1; AExec 1; ACallback 1;
    AExec 2; ACallback 2;
    ATick 1000;
    ALock test_cfg key; AExec 3; ACallback 3; AExec 3; ACallback 3;
    AExec 3; ACallback 3 ].

End Race.

(** ** A delayed DEL

    The release guard (lines 96-100) reads the clock when the handle is
    called, but the DEL it sends executes later.  With [timeout: 2]:
    request A (index 0) takes "x" with lease 2 and releases at second 1,
    in time, so its DEL is sent; at second 2, before the DEL lands, B
    (index 1) finds the lease expired and takes "x" over with lease 4;
    A's DEL then deletes B's lease, and C (index 2) gets "x" by SETNX
    while B's lease runs.  No request ever retried and nothing was
    logged: no GETSET race is involved. *)
Module DelayedDel.
Definition cfg : config := Race.test_cfg.

Definition schedule : list action :=
  [ ALock cfg (Some "x"); AExec 0; ACallback 0;
    ATick 1000; ARelease 0;
    ATick 1000;
    ALock cfg (Some "x"); AExec 1; ACallback 1; AExec 1; ACallback 1; AExec 1; ACallback 1;
    AExec 0; ACallback 0;
    ALock cfg (Some "x"); AExec 2; ACallback 2 ].

(** *** C22. A release that passes the guard can still delete another
    holder's lease: a reachable world has two requests holding
    unexpired leases on one key, although no request ever retried and
    no late release was logged. *)
Theorem delayed_del_breaks_exclusion :
  exists w : world (gmap string string),
    reachable w /\ ~ exclusive w /\
    Forall (fun r => rq_retries r = 0) (w_reqs w) /\ w_log w = [].
Proof.
  eexists. split_and!.
  - apply (run_sound schedule). vm_compute. reflexivity.
  - intros Hex.
    assert (H12 : (1 = 2)%nat).
    { apply (Hex "__locksmith:x"); eexists; split_and!; vm_compute; reflexivity. }
    discriminate.
  - repeat constructor.
  - reflexivity.
Qed.
End DelayedDel.

(** ** A late callback

    The two races above are excluded by a schedule in which every
    GETSET that takes effect writes a lease no smaller than the one it
    replaces, and every DEL that takes effect lands while its lease
    runs.  [timely_action] checks that of one action, and [run_timely]
    of a whole schedule. *)
Module LateCallback.
Definition timely_action (w : world (gmap string string)) (a : action) : bool :=
  match a with
  | AExec i | ALost i =>
      match w_reqs w !! i with
      | Some r =>
          match rq_pc r with
          | PPending (CGetset k _) =>
              match kv_get (w_store w) k ≫= string_to_number with
              | Some e => bool_decide (e <= rq_expires r)
              | None => true
              end
          | PPending (CDel _) => unix (w_now w) <? rq_expires r
          | _ => true
          end
      | None => true
      end
  | _ => true
  end.

Fixpoint run_timely (acts : list action) (w : world (gmap string string)) : bool :=
  match acts with
  | [] => true
  | a :: acts =>
      timely_action w a &&
      match step_fn a w with Some w' => run_timely acts w' | None => false end
  end.

Definition cfg : config := Race.test_cfg.

(** Z (index 0) leaves the lease 2 on "x".  At second 3, A (index 1)
    takes it over with lease 5; B (index 2) has read the same expired
    lease, and at second 4 writes lease 6 by GETSET and reads back A's
    lease 5, but its callback waits.  A releases in time: its DEL
    removes B's lease, and D (index 3) gets "x" by SETNX with lease 6.
    At second 5 B's callback finds the lease 5 it read expired and
    takes the lock, while D's lease runs. *)
Definition schedule : list action :=
  [ ALock cfg (Some "x"); AExec 0; ACallback 0;
    ATick 3000;
    ALock cfg (Some "x"); AExec 1; ACallback 1; AExec 1; ACallback 1;
    ALock cfg (Some "x"); AExec 2; ACallback 2; AExec 2;
    AExec 1; ACallback 1;
    ATick 1000;
    ACallback 2; AExec 2;
    ARelease 1; AExec 1; ACallback 1;
    ALock cfg (Some "x"); AExec 3; ACallback 3;
    ATick 1000;
    ACallback 2 ].

(** *** C23. Excluding the GETSET-ordering race (C2) and the delayed DEL
    (C22) does not restore mutual exclusion: a schedule in which every
    GETSET writes a lease no smaller than the stored one and every DEL
    lands in time still reaches two requests holding unexpired leases,
    because a GETSET loser's callback that runs after the lease it read
    has expired takes the lock.  (The schedules of C2 and C22 both fail
    the check.) *)
Theorem late_callback_breaks_exclusion :
  run_timely Race.schedule init_world = false /\
  run_timely DelayedDel.schedule init_world = false /\
  exists (acts : list action) (w : world (gmap string string)),
    run acts init_world = Some w /\ run_timely acts init_world = true /\
    reachable w /\ ~ exclusive w.
Proof.
  split_and!; [vm_compute; reflexivity | vm_compute; reflexivity |].
  exists schedule. eexists. split_and!.
  - vm_compute. reflexivity.
  - vm_compute. reflexivity.
  - apply (run_sound schedule). vm_compute. reflexivity.
  - intros Hex.
    assert (H23 : (2 = 3)%nat).
    { apply (Hex "__locksmith:x"); eexists; split_and!; vm_compute; reflexivity. }
    discriminate.
Qed.
End LateCallback.

(** ** Witnesses on concrete worlds *)

Module SystemWitness.
Definition cfg : config := mk_config "p:" 10 3.
Definition held : req :=
  mk_req cfg "x" 0 10 PHolding.
Definition loser : req :=
  mk_req cfg "x" 0 13 (PPending (CGetset "p:x" (number_to_string 13))).

Lemma reachable_inv_witness :
  match run [ALock cfg (Some "x"); AExec 0; ACallback 0] (init_world (S := gmap string string)) with
  | Some w => reachable w /\ world_inv w
  | None => False
  end.
Proof.
  destruct (run _ _) as [w|] eqn:E; [| vm_compute in E; discriminate].
  pose proof (run_sound _ _ _ E) as Hr. split; [exact Hr | apply (reachable_inv w Hr)].
Defined.

Lemma late_release_keeps_store_witness :
  let w : world (gmap string string) := mk_world 20000 {[ "p:x" := "25" ]} [held] [] in
  match step_fn (ARelease 0) w with
  | Some w' => w_store w' = w_store w /\ w_reqs w' !! 0%nat = Some (set_pc held PReleased) /\
               w_log w' = w_log w ++ [DiagLateRelease "x"]
  | None => False
  end.
Proof.
  intros w. destruct (step_fn _ _) as [w'|] eqn:E; [| vm_compute in E; discriminate].
  apply (late_release_keeps_store w w' 0 held); [reflexivity | reflexivity | | exact E].
  vm_compute. discriminate.
Defined.

Lemma getset_loser_overwrites_witness :
  let w : world (gmap string string) := mk_world 3000 {[ "p:x" := "14" ]} [loser] [] in
  match step_fn (AExec 0) w with
  | Some w1 =>
      match step_fn (ACallback 0) w1 with
      | Some w2 =>
          kv_get (w_store w2) "p:x" = Some (number_to_string 13) /\
          exists r2, w_reqs w2 !! 0%nat = Some r2 /\ rq_pc r2 <> PHolding
      | None => False
      end
  | None => False
  end.
Proof.
  intros w. destruct (step_fn (AExec 0) w) as [w1|] eqn:E1; [| vm_compute in E1; discriminate].
  destruct (step_fn (ACallback 0) w1) as [w2|] eqn:E2; [| vm_compute in E1; simplify_eq; vm_compute in E2; discriminate].
  apply (getset_loser_overwrites w w1 w2 0 loser 14);
    [reflexivity | reflexivity | reflexivity | vm_compute; reflexivity | exact E1 | exact E2].
Defined.
Definition fresh : req :=
  mk_req cfg "y" 0 10 (PPending (CSetnx "p:y" (number_to_string 10))).

Lemma lost_setnx_orphans_lease_witness :
  let w : world (gmap string string) := mk_world 0 ∅ [fresh] [] in
  match step_fn (ALost 0) w with
  | Some w1 =>
      match step_fn (ACallback 0) w1 with
      | Some w2 =>
          kv_get (w_store w2) "p:y" = Some (number_to_string 10) /\
          w_reqs w2 !! 0%nat = Some (set_pc fresh (PFailed StoreError))
      | None => False
      end
  | None => False
  end.
Proof.
  intros w. destruct (step_fn (ALost 0) w) as [w1|] eqn:E1; [| vm_compute in E1; discriminate].
  destruct (step_fn (ACallback 0) w1) as [w2|] eqn:E2; [| vm_compute in E1; simplify_eq; vm_compute in E2; discriminate].
  apply (lost_setnx_orphans_lease w w1 w2 0 fresh);
    [reflexivity | reflexivity | reflexivity | exact E1 | exact E2].
Defined.
End SystemWitness.
