(* ===== verification/Typing.v ===== *)
(** * Typing of the replies the callbacks receive

    The callbacks of [src/index.js] use the [response] of node_redis
    without checking its type.  [handleSetnx] (line 54) tests
    [response === 1].  [handleGet] and [handleGetSet] (lines 70 and
    78) evaluate [moment().unix() < keyExpires], which is an integer
    comparison only when [keyExpires] is [null] or a decimal lease.
    This file gives each command the type of its replies:
    - SETNX and DEL answer the integer [0] or [1];
    - GET and GETSET answer a bulk string holding a lease, or [null].
    It proves that every reply waiting for its callback in a reachable
    world of [System] has its command's type.  Hence the
    comparisons of lines 70 and 78 never meet [NaN] or [undefined]: they
    compare the current second with the lease read, or with [0] for an
    absent key (C27). *)

From S2P Require Import Prelude JsValue Clock Store Config Acquire System.

(** ** Reply types, as boolean tests *)

(** A string that is the decimal form of an integer. *)
Definition lease_string (s : string) : bool :=
  match string_to_number s with
  | Some e => String.eqb (number_to_string e) s
  | None => false
  end.

(** A bulk reply of GET or GETSET on a store holding leases. *)
Definition bulk_typed (v : jsval) : bool :=
  match v with
  | JNull => true
  | JStr s => lease_string s
  | _ => false
  end.

(** An integer reply of SETNX or DEL. *)
Definition int_typed (v : jsval) : bool :=
  match v with
  | JNum 0 | JNum 1 => true
  | _ => false
  end.

(** The reply a callback receives for command [c]: an error, or a value
    of the command's type. *)
Definition reply_typed (c : cmd) (rep : reply) : bool :=
  match rep with
  | RErr => true
  | ROk v =>
      match c with
      | CSetnx _ _ | CDel _ => int_typed v
      | CGet _ | CGetset _ _ => bulk_typed v
      end
  end.

(** Only a reply waiting for its callback carries a type to check. *)
Definition pc_typed (p : pc) : bool :=
  match p with
  | PReady c rep => reply_typed c rep
  | _ => true
  end.

Section Typing.
Context {S : Type} `{KVStore S}.
Implicit Types (w : world S) (r : req).

Definition typed_world w : Prop :=
  Forall (fun r => pc_typed (rq_pc r) = true) (w_reqs w).

(** ** Lemmas *)

Lemma lease_string_spec s : lease_string s = true <-> exists e, s = number_to_string e.
Proof.
  unfold lease_string. split.
  - case_match; [| done]. intros Heq%String.eqb_eq. eauto.
  - intros [e ->]. rewrite string_to_number_roundtrip. apply String.eqb_refl.
Qed.

Lemma bulk_lease o :
  (forall v, o = Some v -> exists e, v = number_to_string e) -> bulk_typed (bulk o) = true.
Proof. destruct o as [v|]; [| done]. intros Ho. apply lease_string_spec. eauto. Qed.

(** On a store of leases, the server answers each command with a reply
    of its type. *)
Lemma exec_cmd_typed c (s : S) :
  numeric_store s -> reply_typed c (ROk (exec_cmd c s).2) = true.
Proof.
  intros Hs. destruct c; cbn [exec_cmd reply_typed]; repeat case_match; try done;
    apply bulk_lease; intros v0 Hv; by apply (Hs k).
Qed.

(** A callback, a timer and a release never leave a reply behind. *)
Lemma retry_typed now r : pc_typed (rq_pc (retry now r)) = true.
Proof. unfold retry. by case_match. Qed.

Lemma callback_typed now r c rep : pc_typed (rq_pc (callback now r c rep).1) = true.
Proof.
  destruct c; cbn [callback fst];
    [unfold handleSetnx | unfold handleGet | unfold handleGetSet | unfold handleDel];
    repeat case_match; simplify_eq; try apply retry_typed; done.
Qed.

Lemma release_typed now r : pc_typed (rq_pc (_release now r).1) = true.
Proof. unfold _release. by case_match. Qed.

Lemma upd_req_typed w i r ds s :
  typed_world w -> pc_typed (rq_pc r) = true -> typed_world (upd_req w i r ds s).
Proof. intros Hw Hr. by apply Forall_insert. Qed.

#[local] Hint Resolve upd_req_typed retry_typed callback_typed release_typed : locksmith.

(** Every step keeps the replies typed, given the store invariant. *)
Lemma step_typed w w' : world_inv w -> typed_world w -> step w w' -> typed_world w'.
Proof.
  intros [_ Hs] Hw Hstep.
  destruct Hstep as [w d Hd|w cfg key|w i r c s' v Hi Hp He|w i r c Hi Hp|w i r c Hi Hp
                    |w i r c rep r' ds Hi Hp Hc|w i r due Hi Hp Hdue|w i r r' ds Hi Hp Hrel].
  - done.
  - apply Forall_app; split; [done | by constructor].
  - apply upd_req_typed; [done |]. cbn.
    replace v with (exec_cmd c (w_store w)).2 by by rewrite He. by apply exec_cmd_typed.
  - by apply upd_req_typed.
  - by apply upd_req_typed.
  - apply upd_req_typed; [done |].
    pose proof (callback_typed (w_now w) r c rep) as Hcb. by rewrite Hc in Hcb.
  - by apply upd_req_typed.
  - apply upd_req_typed; [done |].
    pose proof (release_typed (w_now w) r) as Hr. by rewrite Hrel in Hr.
Qed.

Lemma reachable_typed_world w : reachable w -> typed_world w.
Proof.
  intros Hr.
  cut (world_inv w /\ typed_world w); [by intros [_ ?] |].
  eapply (star_ind_inv step (fun w => world_inv w /\ typed_world w)); [| exact Hr |].
  - intros a b [Ha Hta] Hab. split; [by eapply step_inv | by eapply step_typed].
  - split; [split; [constructor | apply numeric_store_empty] | constructor].
Qed.

Lemma reachable_pc_typed w i r :
  reachable w -> w_reqs w !! i = Some r -> pc_typed (rq_pc r) = true.
Proof. intros Hr Hi. exact (Forall_lookup_1 _ _ _ _ (reachable_typed_world w Hr) Hi). Qed.

(** A typed bulk reply compares like an integer. *)
Lemma bulk_typed_compare n v :
  bulk_typed v = true ->
  exists e, js_lt_num n v = (n <? e) /\ (v = JNull /\ e = 0 \/ v = JStr (number_to_string e)).
Proof.
  destruct v as [| | | | |s]; try done.
  - intros _. exists 0. auto.
  - intros [e ->]%lease_string_spec. exists e. rewrite js_lt_num_lease. auto.
Qed.

(** ** Theorems *)

(** *** C27. The tests [moment().unix() < keyExpires] of [handleGet]
    and [handleGetSet] (lines 70 and 78) are integer comparisons in
    every reachable world: a successful GET or GETSET reply has the
    bulk reply type, and compares as the lease it holds, or as [0] when
    the key was absent, never as [NaN]. *)
Theorem lease_compare_integer w i r c v n :
  reachable w -> w_reqs w !! i = Some r -> rq_pc r = PReady c (ROk v) ->
  (exists k, c = CGet k) \/ (exists k l, c = CGetset k l) ->
  bulk_typed v = true /\
  exists e, js_lt_num n v = (n <? e) /\
            (v = JNull /\ e = 0 \/ v = JStr (number_to_string e)).
Proof.
  intros Hr Hi Hp Hc.
  assert (Hb : bulk_typed v = true).
  { pose proof (reachable_pc_typed w i r Hr Hi) as Ht. rewrite Hp in Ht.
    by destruct Hc as [[k ->] | (k & l & ->)]. }
  split; [exact Hb | by apply bulk_typed_compare].
Qed.
End Typing.

(** A lock whose key is taken: the GET of the loser reads the lease. *)
Module TypingWitness.
Definition cfg : config := mk_config "p:" 10 3.

Definition schedule : list action :=
  [ALock cfg (Some "x"); AExec 0; ACallback 0; ALock cfg (Some "x"); AExec 1;
   ACallback 1; AExec 1].

Definition final : option (world (gmap string string)) := run schedule init_world.

Definition final_world : world (gmap string string) :=
  match final with Some w => w | None => init_world end.

Lemma final_world_reachable : reachable final_world.
Proof. apply (run_sound schedule). vm_compute. reflexivity. Qed.

Lemma lease_compare_integer_witness :
  bulk_typed (JStr (number_to_string 10)) = true /\
  exists e, js_lt_num 5 (JStr (number_to_string 10)) = (5 <? e) /\
    (JStr (number_to_string 10) = JNull /\ e = 0 \/
     JStr (number_to_string 10) = JStr (number_to_string e)).
Proof.
  eapply (lease_compare_integer final_world 1%nat _ (CGet "p:x"));
    [exact final_world_reachable | vm_compute; reflexivity | vm_compute; reflexivity |].
  left. eexists. reflexivity.
Defined.
End TypingWitness.
