(* ===== verification/Usage.v ===== *)
(** * The package entry point and the usage script

    [module.exports] (src/index.js lines 117-120) builds a [Locksmith]
    from the caller's options and returns its [lock], bound.  The usage
    script src/test/index.js calls it with [{timeout: 2}] and issues
    four [lock] calls at once ("asdf" three times, "notblocked" once);
    each callback logs a name and calls the release handle, at once or,
    for the first, after 15 seconds; the first two return early on an
    error, the last two do not check it and call the undefined handle.

    The script is a client composed with the fine-grained system of
    [System]: a [uworld] holds the system's world, one client state per
    [lock] call, the script's console output and whether the process is
    alive.  The script's callback runs inside the library callback that
    calls [cb] ([react] after [ACallback]); its release handle runs
    [_release]; its [setTimeout(release, 15000)] is a client timer
    ([UFire]).  A TypeError kills the process: afterwards only the
    Redis server and the clock move. *)

From S2P Require Import Prelude JsValue Clock Store Config Acquire System.

(** ** The entry point *)

(** [module.exports(options)]: the bound [lock] of a new [Locksmith],
    and the caller's options object after the constructor. *)
Definition module_exports (o : options) : (option string -> Z -> req) * options :=
  let '(cfg, o') := Locksmith_new o in (lock cfg, o').

(** ** The script *)

(** [require('../index')({timeout: 2})] (lines 1-3). *)
Definition script_options : options :=
  mk_options JUndefined JUndefined JUndefined (Some 2) None false.

Definition script_lock : option string -> Z -> req := (module_exports script_options).1.

(** What a callback does with an error: return after logging it
    (lines 6 and 12), or carry on and call the undefined handle (lines
    17-24). *)
Inductive on_error := LogsError | NoErrorCheck.

(** What it does with the lock: release after a delay (line 9) or at
    once (lines 15, 19, 23). *)
Inductive on_success := ReleaseAfter (ms : Z) | ReleaseAtOnce.

Record caller := mk_caller {
  cl_key : string;
  cl_name : string;
  cl_err : on_error;
  cl_ok : on_success
}.

(** The four calls, in program order (lines 5-24). *)
Definition script : list caller :=
  [ mk_caller "asdf" "first" LogsError (ReleaseAfter 15000);
    mk_caller "asdf" "second" LogsError ReleaseAtOnce;
    mk_caller "notblocked" "notblocked" NoErrorCheck ReleaseAtOnce;
    mk_caller "asdf" "third" NoErrorCheck ReleaseAtOnce ].

(** A callback not yet called, a release timer armed, or done. *)
Inductive cstate := CWaiting | CTimer (due : Z) | CDone.

(** What the script prints: [console.log], [console.error(err)], and
    the uncaught TypeError. *)
Inductive output := OLog (s : string) | OError (e : lock_error) | OCrash.

Record uworld := mk_uworld {
  u_sys : world (gmap string string);
  u_client : list cstate;
  u_out : list output;
  u_alive : bool
}.

(** The script runs its four [lock] calls synchronously at time 0. *)
Definition usage_init : uworld :=
  mk_uworld (mk_world 0 ∅ (map (fun c => script_lock (Some (cl_key c)) 0) script) [])
            (map (fun _ => CWaiting) script) [] true.

(** The release handle: [_release] on the request it was given for. *)
Definition release_handle (w : world (gmap string string)) (i : nat) (r : req) :
    world (gmap string string) :=
  let '(r', ds) := _release (w_now w) r in upd_req w i r' ds (w_store w).

(** The script's callback for call [i], run when the library has just
    called [cb(null, release)] or [cb(err)]. *)
Definition react (i : nat) (uw : uworld) : uworld :=
  match script !! i, u_client uw !! i, w_reqs (u_sys uw) !! i with
  | Some c, Some CWaiting, Some r =>
      match rq_pc r with
      | PHolding =>
          let out := u_out uw ++ [OLog (cl_name c)] in
          match cl_ok c with
          | ReleaseAfter ms =>
              mk_uworld (u_sys uw) (<[i := CTimer (w_now (u_sys uw) + ms)]> (u_client uw)) out true
          | ReleaseAtOnce =>
              mk_uworld (release_handle (u_sys uw) i r) (<[i := CDone]> (u_client uw)) out true
          end
      | PFailed e =>
          match cl_err c with
          | LogsError =>
              mk_uworld (u_sys uw) (<[i := CDone]> (u_client uw)) (u_out uw ++ [OError e]) true
          | NoErrorCheck =>
              mk_uworld (u_sys uw) (<[i := CDone]> (u_client uw))
                        (u_out uw ++ [OLog (cl_name c); OCrash]) false
          end
      | _ => uw
      end
  | _, _, _ => uw
  end.

Inductive uaction := USys (a : action) | UFire (i : nat).

(** Events the Redis server and the clock produce, which go on after
    the process died. *)
Definition server_action (a : action) : bool :=
  match a with ATick _ | AExec _ | AFail _ | ALost _ => true | _ => false end.

Definition ustep_fn (ua : uaction) (uw : uworld) : option uworld :=
  match ua with
  | USys (ALock _ _) | USys (ARelease _) => None
  | USys a =>
      if u_alive uw || server_action a then
        match step_fn a (u_sys uw) with
        | Some w' =>
            let uw' := mk_uworld w' (u_client uw) (u_out uw) (u_alive uw) in
            Some (match a with ACallback i => react i uw' | _ => uw' end)
        | None => None
        end
      else None
  | UFire i =>
      if u_alive uw then
        match u_client uw !! i, w_reqs (u_sys uw) !! i with
        | Some (CTimer due), Some r =>
            if due <=? w_now (u_sys uw) then
              Some (mk_uworld (release_handle (u_sys uw) i r) (<[i := CDone]> (u_client uw))
                              (u_out uw) true)
            else None
        | _, _ => None
        end
      else None
  end.

Fixpoint urun (acts : list uaction) (uw : uworld) : option uworld :=
  match acts with
  | [] => Some uw
  | a :: acts => match ustep_fn a uw with Some uw' => urun acts uw' | None => None end
  end.

Definition ustep (uw uw' : uworld) : Prop := exists ua, ustep_fn ua uw = Some uw'.

Definition ureachable (uw : uworld) : Prop := star ustep usage_init uw.

(** ** What the library's events keep *)

Section Keeps.
Implicit Types (w : world (gmap string string)).

Lemma callback_keeps now r c rep :
  rq_cfg (callback now r c rep).1 = rq_cfg r /\ rq_key (callback now r c rep).1 = rq_key r /\
  (rq_expires (callback now r c rep).1 = rq_expires r \/
   rq_expires (callback now r c rep).1 = expires_at now (cfg_timeout (rq_cfg r))).
Proof.
  destruct c; cbn [callback fst];
    [unfold handleSetnx | unfold handleGet | unfold handleGetSet | unfold handleDel];
    repeat case_match; unfold retry; cbn; auto.
Qed.

Lemma release_keeps now r :
  rq_cfg (_release now r).1 = rq_cfg r /\ rq_key (_release now r).1 = rq_key r /\
  rq_expires (_release now r).1 = rq_expires r.
Proof. unfold _release. case_match; cbn; auto. Qed.

(** A lease is never further ahead than one timeout. *)
Definition lease_ok (now : Z) (r : req) : Prop :=
  rq_expires r <= unix now + cfg_timeout (rq_cfg r).

(** The requests that stay the same record, key and configuration; the
    ones that change keep key and configuration and get a lease of at
    most one timeout ahead. *)
Definition keeps w w' : Prop :=
  length (w_reqs w') = length (w_reqs w) /\ w_now w <= w_now w' /\
  forall i r', w_reqs w' !! i = Some r' -> exists r, w_reqs w !! i = Some r /\
    rq_cfg r' = rq_cfg r /\ rq_key r' = rq_key r /\
    (rq_expires r' = rq_expires r \/ rq_expires r' = unix (w_now w') + cfg_timeout (rq_cfg r)) /\
    (rq_pc r = PHolding -> r' = r \/ r' = (_release (w_now w) r).1).

Lemma keeps_upd w i r r' ds s :
  w_reqs w !! i = Some r -> rq_cfg r' = rq_cfg r -> rq_key r' = rq_key r ->
  (rq_expires r' = rq_expires r \/ rq_expires r' = unix (w_now w) + cfg_timeout (rq_cfg r)) ->
  (rq_pc r = PHolding -> r' = (_release (w_now w) r).1) ->
  keeps w (upd_req w i r' ds s).
Proof.
  intros Hi Hc Hk He Hh. split_and!; [simpl; by rewrite length_insert | simpl; lia |].
  intros j rj Hj. simpl in Hj. destruct (decide (j = i)) as [-> | Hji].
  - rewrite list_lookup_insert_eq in Hj by (by eapply lookup_lt_Some). simplify_eq.
    exists r. split_and!; auto.
  - rewrite list_lookup_insert_ne in Hj by done. exists rj. split_and!; auto.
Qed.

(** Every event of the system but [lock] keeps the requests so. *)
Lemma step_fn_keeps a w w' :
  step_fn a w = Some w' -> (forall cfg key, a <> ALock cfg key) -> keeps w w'.
Proof.
  intros H Hnl. destruct a as [d|cfg key|i|i|i|i|i|i]; [| by destruct (Hnl cfg key) | ..];
    cbn [step_fn] in H.
  - destruct (Z.ltb_spec 0 d); [| discriminate]. simplify_eq.
    split_and!; [done | simpl; lia |]. intros j rj Hj. exists rj. split_and!; auto.
  - destruct (w_reqs w !! i) as [r|] eqn:Hi; [| discriminate].
    destruct (rq_pc r) eqn:Hp; try discriminate. destruct (exec_cmd _ _). simplify_eq.
    apply (keeps_upd w i r); auto. by rewrite Hp.
  - destruct (w_reqs w !! i) as [r|] eqn:Hi; [| discriminate].
    destruct (rq_pc r) eqn:Hp; try discriminate. simplify_eq.
    apply (keeps_upd w i r); auto. by rewrite Hp.
  - destruct (w_reqs w !! i) as [r|] eqn:Hi; [| discriminate].
    destruct (rq_pc r) eqn:Hp; try discriminate. simplify_eq.
    apply (keeps_upd w i r); auto. by rewrite Hp.
  - destruct (w_reqs w !! i) as [r|] eqn:Hi; [| discriminate].
    destruct (rq_pc r) as [|c rep| | | |] eqn:Hp; try discriminate.
    pose proof (callback_keeps (w_now w) r c rep) as (Hc & Hk & He).
    destruct (callback _ _ _ _) as [r' ds]. cbn [fst] in Hc, Hk, He. simplify_eq.
    apply (keeps_upd w i r); auto; [| by rewrite Hp].
    destruct He as [He | He]; [by left | right]. by rewrite He, expires_at_spec.
  - destruct (w_reqs w !! i) as [r|] eqn:Hi; [| discriminate].
    destruct (rq_pc r) eqn:Hp; try discriminate. destruct (_ <=? _); [| discriminate].
    simplify_eq. apply (keeps_upd w i r); auto; [| by rewrite Hp].
    right. cbn. by rewrite expires_at_spec.
  - destruct (w_reqs w !! i) as [r|] eqn:Hi; [| discriminate].
    destruct (rq_pc r) eqn:Hp; try discriminate.
    pose proof (release_keeps (w_now w) r) as (Hc & Hk & He).
    destruct (_release _ _) as [r' ds] eqn:Hrel. cbn [fst] in Hc, Hk, He. simplify_eq.
    apply (keeps_upd w i r); auto. intros _. by rewrite Hrel.
Qed.
End Keeps.

(** A request that holds the lock is left alone by every event but its
    release. *)
Lemma step_fn_holding a w w' i r :
  step_fn a w = Some w' -> (forall j, a <> ARelease j) ->
  w_reqs w !! i = Some r -> rq_pc r = PHolding -> w_reqs w' !! i = Some r.
Proof.
  intros H Hnr Hi Hp.
  destruct a as [d|cfg key|j|j|j|j|j|j]; [| | | | | | | by destruct (Hnr j)]; cbn [step_fn] in H.
  { destruct (0 <? d); by simplify_eq. }
  { simplify_eq. simpl. rewrite lookup_app_l; [done | by eapply lookup_lt_Some]. }
  all: destruct (w_reqs w !! j) as [rj|] eqn:Hj; [| discriminate];
    destruct (decide (i = j)) as [-> | Hij];
    [rewrite Hj in Hi; simplify_eq; rewrite Hp in H; discriminate |];
    repeat case_match; simplify_eq; simpl; by rewrite list_lookup_insert_ne.
Qed.

(** ** The script's invariant *)

Definition script_cfg : config := Locksmith (Some script_options).

(** Four requests and four callbacks; each request has the script's
    configuration and its call's key, and a lease at most one timeout
    ahead; a release timer is armed only for a request that holds the
    lock, at least 13 seconds after its lease runs out. *)
Definition uinv (uw : uworld) : Prop :=
  length (w_reqs (u_sys uw)) = length script /\ length (u_client uw) = length script /\
  (forall i c r, script !! i = Some c -> w_reqs (u_sys uw) !! i = Some r ->
     rq_cfg r = script_cfg /\ rq_key r = cl_key c) /\
  Forall (lease_ok (w_now (u_sys uw))) (w_reqs (u_sys uw)) /\
  (forall i due, u_client uw !! i = Some (CTimer due) ->
     exists r, w_reqs (u_sys uw) !! i = Some r /\ rq_pc r = PHolding /\
               rq_expires r + 13 <= unix due).

Lemma uinv_init : uinv usage_init.
Proof.
  split_and!; [done | done | | | ].
  - intros i c r Hc Hr. do 4 (destruct i as [|i]; [vm_compute in Hc, Hr; by simplify_eq |]).
    vm_compute in Hc. discriminate.
  - repeat constructor; vm_compute; discriminate.
  - intros i due Hi. do 4 (destruct i as [|i]; [vm_compute in Hi; discriminate |]).
    vm_compute in Hi. discriminate.
Qed.

Lemma uinv_sys a uw w' :
  uinv uw -> step_fn a (u_sys uw) = Some w' ->
  (forall cfg key, a <> ALock cfg key) -> (forall j, a <> ARelease j) ->
  uinv (mk_uworld w' (u_client uw) (u_out uw) (u_alive uw)).
Proof.
  intros (Hl & Hcl & Hkey & Hlease & Htimer) H Hnl Hnr.
  destruct (step_fn_keeps a _ _ H Hnl) as (Hlen & Hnow & Hk).
  split_and!; cbn [u_sys u_client u_out u_alive]; [congruence | done | | |].
  - intros i c r' Hc Hr'. destruct (Hk i r' Hr') as (r & Hr & Hcfg & Hkk & _).
    rewrite Hcfg, Hkk. by apply (Hkey i c r).
  - apply Forall_lookup. intros i r' Hr'. destruct (Hk i r' Hr') as (r & Hr & Hcfg & _ & He & _).
    pose proof (Forall_lookup_1 _ _ _ _ Hlease Hr) as Hok. unfold lease_ok in *.
    pose proof (unix_mono _ _ Hnow). rewrite Hcfg. destruct He as [-> | ->]; lia.
  - intros i due Hi. destruct (Htimer i due Hi) as (r & Hr & Hp & He).
    exists r. split_and!; [by eapply step_fn_holding | done | done].
Qed.

Lemma uinv_done uw i out alive :
  uinv uw -> uinv (mk_uworld (u_sys uw) (<[i := CDone]> (u_client uw)) out alive).
Proof.
  intros (Hl & Hcl & Hkey & Hlease & Htimer).
  split_and!; cbn [u_sys u_client]; [done | by rewrite length_insert | done | done |].
  intros j due Hj. destruct (decide (j = i)) as [-> | Hji].
  - apply list_lookup_insert_Some in Hj as [(_ & [=] & _) | (? & _)]; done.
  - rewrite list_lookup_insert_ne in Hj by done. by apply Htimer.
Qed.

(** Calling the release handle of call [i] and marking it done. *)
Lemma uinv_release uw i r out alive :
  uinv uw -> w_reqs (u_sys uw) !! i = Some r ->
  uinv (mk_uworld (release_handle (u_sys uw) i r) (<[i := CDone]> (u_client uw)) out alive).
Proof.
  intros Hinv Hr. pose proof (uinv_done uw i out alive Hinv) as (Hl & Hcl & Hkey & Hlease & Htimer).
  cbn [u_sys u_client] in *. pose proof (release_keeps (w_now (u_sys uw)) r) as (Hc & Hk & He).
  pose proof (lookup_lt_Some _ _ _ Hr) as Hlt.
  unfold release_handle. destruct (_release _ _) as [r' ds]. cbn [fst] in Hc, Hk, He.
  split_and!; cbn [u_sys u_client w_reqs upd_req w_now]; [by rewrite length_insert | done | | |].
  - intros j c rj Hc' Hj. destruct (decide (j = i)) as [-> | Hji].
    + rewrite list_lookup_insert_eq in Hj by done. simplify_eq. rewrite Hc, Hk.
      by apply (Hkey i c r).
    + rewrite list_lookup_insert_ne in Hj by done. by apply (Hkey j c rj).
  - apply Forall_insert; [done |]. unfold lease_ok. rewrite He, Hc.
    exact (Forall_lookup_1 _ _ _ _ Hlease Hr).
  - intros j due Hj. destruct (Htimer j due Hj) as (rj & Hrj & Hp & Hle).
    assert (Hji : j <> i).
    { intros ->. destruct Hinv as (Hl0 & Hcl0 & _).
      rewrite list_lookup_insert_eq in Hj by lia. discriminate. }
    exists rj. rewrite list_lookup_insert_ne by done. done.
Qed.

Lemma script_delay i c ms : script !! i = Some c -> cl_ok c = ReleaseAfter ms -> ms = 15000.
Proof.
  intros Hc Hok. do 4 (destruct i as [|i]; [simpl in Hc; simplify_eq; simpl in Hok; by simplify_eq |]).
  discriminate.
Qed.

Lemma unix_after_15s (now : Z) : unix (now + 15000) = unix now + 15.
Proof. unfold unix. replace 15000 with (15 * 1000) by lia. by apply Z_div_add_whole. Qed.

Lemma uinv_react i uw : uinv uw -> uinv (react i uw).
Proof.
  intros Hinv. pose proof Hinv as (Hl & Hcl & Hkey & Hlease & Htimer). unfold react.
  destruct (script !! i) as [c|] eqn:Hc; [| done].
  destruct (u_client uw !! i) as [[| |]|] eqn:Hci; try done.
  destruct (w_reqs (u_sys uw) !! i) as [r|] eqn:Hr; [| done].
  destruct (rq_pc r) eqn:Hp; try done.
  - destruct (cl_ok c) as [ms|] eqn:Hok; [| by apply uinv_release].
    pose proof (script_delay i c ms Hc Hok) as ->.
    split_and!; cbn [u_sys u_client]; [done | by rewrite length_insert | done | done |].
    intros j due Hj. destruct (decide (j = i)) as [-> | Hji].
    + rewrite list_lookup_insert_eq in Hj by (by eapply lookup_lt_Some). simplify_eq.
      exists r. split_and!; [done | done |].
      destruct (Hkey i c r Hc Hr) as [Hcfg _].
      pose proof (Forall_lookup_1 _ _ _ _ Hlease Hr) as Hok'. unfold lease_ok in Hok'.
      rewrite Hcfg in Hok'. change (cfg_timeout script_cfg) with 2 in Hok'.
      rewrite unix_after_15s. lia.
    + rewrite list_lookup_insert_ne in Hj by done. by apply Htimer.
  - destruct (cl_err c); by apply uinv_done.
Qed.

(** Every event of the composed system keeps the script's invariant. *)
Lemma ustep_uinv ua uw uw' : uinv uw -> ustep_fn ua uw = Some uw' -> uinv uw'.
Proof.
  intros Hinv H. destruct ua as [a|i].
  - assert (Hsys : forall w', step_fn a (u_sys uw) = Some w' ->
              (forall cfg key, a <> ALock cfg key) -> (forall j, a <> ARelease j) ->
              uinv (mk_uworld w' (u_client uw) (u_out uw) (u_alive uw)))
      by (intros; by eapply uinv_sys).
    destruct a as [d|cfg key|j|j|j|j|j|j]; cbn [ustep_fn] in H; try discriminate;
      (destruct (_ || _); [| discriminate]);
      destruct (step_fn _ (u_sys uw)) as [w'|] eqn:E; try discriminate; simplify_eq;
      try (apply Hsys; [done | intros ??; discriminate | intros ?; discriminate]).
    apply uinv_react. apply Hsys; [done | intros ??; discriminate | intros ?; discriminate].
  - cbn [ustep_fn] in H. destruct (u_alive uw); [| discriminate].
    destruct (u_client uw !! i) as [[|due|]|]; try discriminate.
    destruct (w_reqs (u_sys uw) !! i) as [r|] eqn:Hr; [| discriminate].
    destruct (_ <=? _); [| discriminate]. simplify_eq. by apply uinv_release.
Qed.

Lemma ureachable_uinv uw : ureachable uw -> uinv uw.
Proof.
  intros Hr. eapply (star_ind_inv ustep uinv); [| exact Hr | exact uinv_init].
  intros x y Hx [ua Hua]. by eapply ustep_uinv.
Qed.

Lemma urun_sound acts uw uw' : urun acts uw = Some uw' -> star ustep uw uw'.
Proof.
  revert uw. induction acts as [|a acts IH]; intros uw H; simpl in H; [simplify_eq; constructor |].
  destruct (ustep_fn a uw) as [uw1|] eqn:E; [| discriminate].
  apply (star_step uw uw1 uw'); [by exists a | by apply IH].
Qed.

(** *** C26. [setTimeout(release, 15000)] with a 2 second lease is always
    too late: whatever the interleaving of the script's requests, the
    Redis server and the clock, every release timer the script fires
    finds its lease expired, so the release leaves the store untouched,
    only logs a late release for its key, and prints nothing. *)
Theorem delayed_release_late uw uw' i :
  ureachable uw -> ustep_fn (UFire i) uw = Some uw' ->
  exists c, script !! i = Some c /\
    w_store (u_sys uw') = w_store (u_sys uw) /\
    w_log (u_sys uw') = w_log (u_sys uw) ++ [DiagLateRelease (cl_key c)] /\
    u_out uw' = u_out uw.
Proof.
  intros Hr H. destruct (ureachable_uinv uw Hr) as (Hl & Hcl & Hkey & Hlease & Htimer).
  cbn [ustep_fn] in H. destruct (u_alive uw); [| discriminate].
  destruct (u_client uw !! i) as [[|due|]|] eqn:Hci; try discriminate.
  destruct (w_reqs (u_sys uw) !! i) as [r|] eqn:Hri; [| discriminate].
  destruct (Z.leb_spec due (w_now (u_sys uw))) as [Hdue |]; [| discriminate]. simplify_eq.
  destruct (Htimer i due Hci) as (r0 & Hr0 & Hp & He). rewrite Hri in Hr0. simplify_eq.
  destruct (lookup_lt_is_Some_2 script i) as [c Hc]; [rewrite <- Hl; by eapply lookup_lt_Some |].
  destruct (Hkey i c r0 Hc Hri) as [_ Hk].
  pose proof (unix_mono _ _ Hdue) as Hmono.
  exists c. unfold release_handle, _release. cbn [u_sys u_out].
  destruct (Z.ltb_spec (unix (w_now (u_sys uw))) (rq_expires r0)); [lia |].
  cbn. by rewrite Hk.
Qed.

(** ** The script's run *)

Module ScriptRun.
(** Every reply promptly handled, timers fired when due: "first" takes
    "asdf" and arms its 15 s release; "second" and "third" retry;
    "notblocked" gets its key and releases it; at second 2 "second"
    takes "asdf" over and releases it, then "third" gets it by SETNX and
    releases it; at second 15 the first release fires, too late. *)
Definition schedule : list uaction :=
  map USys
    [ AExec 0; ACallback 0;
      AExec 1; ACallback 1; AExec 1; ACallback 1;
      AExec 2; ACallback 2; AExec 2; ACallback 2;
      AExec 3; ACallback 3; AExec 3; ACallback 3;
      ATick 1000;
      ATimer 1; AExec 1; ACallback 1; AExec 1; ACallback 1;
      ATimer 3; AExec 3; ACallback 3; AExec 3; ACallback 3;
      ATick 1000;
      ATimer 1; AExec 1; ACallback 1; AExec 1; ACallback 1; AExec 1; ACallback 1;
      AExec 1; ACallback 1;
      ATimer 3; AExec 3; ACallback 3; AExec 3; ACallback 3;
      ATick 13000 ] ++ [UFire 0].

(** The run up to second 15, just before the first release fires. *)
Definition before_release : option uworld := urun (removelast schedule) usage_init.

Lemma delayed_release_late_witness :
  match before_release with
  | Some uw =>
      match ustep_fn (UFire 0) uw with
      | Some uw' =>
          ureachable uw /\
          exists c, script !! 0%nat = Some c /\
            w_store (u_sys uw') = w_store (u_sys uw) /\
            w_log (u_sys uw') = w_log (u_sys uw) ++ [DiagLateRelease (cl_key c)] /\
            u_out uw' = u_out uw
      | None => False
      end
  | None => False
  end.
Proof.
  destruct before_release as [uw|] eqn:E; [| vm_compute in E; discriminate].
  destruct (ustep_fn (UFire 0) uw) as [uw'|] eqn:E'; [| vm_compute in E; injection E as <-;
    vm_compute in E'; discriminate].
  assert (Hr : ureachable uw) by exact (urun_sound _ _ _ E).
  split; [exact Hr | exact (delayed_release_late uw uw' 0 Hr E')].
Defined.
End ScriptRun.
