(* ===== verification/Termination.v ===== *)
(** * Termination: no request acts forever

    In the source a request is a chain of callbacks and [setTimeout]s:
    [aquire] sends SETNX, its callback sends GET or ends, GET's callback
    sends GETSET or calls [retry], which re-arms [aquire] a second later
    unless the budget is spent.  Nothing in the code bounds this chain
    syntactically; the retry counter does.  [measure] weighs a request
    by the retries it has left and by how far it is along its current
    attempt ([rank]), and every event of the fine-grained system that
    changes a request lowers its weight, which stays non-negative in
    every reachable world (the counter bound of [System]).  Hence the
    relation "one event turns [r] into [r']" is well founded: no request
    changes state infinitely often, whatever the interleaving, and a
    request takes part in at most [measure] of its initial state
    events. *)

From S2P Require Import Prelude JsValue Clock Store Config Acquire System.
From Stdlib Require Import Wellfounded Wf_nat.

(** How far a request is along its current attempt, counting down. *)
Definition rank (p : pc) : Z :=
  match p with
  | PTimer _ => 10
  | PPending (CSetnx _ _) => 9
  | PReady (CSetnx _ _) _ => 8
  | PPending (CGet _) => 7
  | PReady (CGet _) _ => 6
  | PPending (CGetset _ _) => 5
  | PReady (CGetset _ _) _ => 4
  | PHolding => 3
  | PPending (CDel _) => 2
  | PReady (CDel _) _ => 1
  | PReleased | PFailed _ => 0
  end.

(** Retries left, weighted above any progress within one attempt. *)
Definition measure (r : req) : Z :=
  11 * (Z.max 0 (cfg_retries (rq_cfg r) + 1) + 1 - rq_retries r) + rank (rq_pc r).

Section Termination.
Context {S : Type} `{KVStore S}.
Implicit Types (w : world S).

(** What an event can do to request [i]. *)
Lemma step_req_change w w' i r r' :
  step w w' -> w_reqs w !! i = Some r -> w_reqs w' !! i = Some r' -> r' <> r ->
  (exists c rep, rq_pc r = PPending c /\ r' = set_pc r (PReady c rep)) \/
  (exists c rep, rq_pc r = PReady c rep /\ r' = (callback (w_now w) r c rep).1) \/
  (exists due, rq_pc r = PTimer due /\ r' = aquire (w_now w) r) \/
  (rq_pc r = PHolding /\ r' = (_release (w_now w) r).1).
Proof.
  intros Hs Hi Hi' Hne.
  destruct Hs as [w d Hd|w cfg key|w j rj c s' v Hj Hp He|w j rj c Hj Hp|w j rj c Hj Hp
                 |w j rj c rep rj' ds Hj Hp Hc|w j rj due Hj Hp Hdue|w j rj rj' ds Hj Hp Hrel];
    simpl in Hi'; try congruence.
  { rewrite lookup_app_l in Hi' by (eapply lookup_lt_Some; eauto). congruence. }
  all: destruct (decide (i = j)) as [-> | Hij];
    [| rewrite list_lookup_insert_ne in Hi' by done; congruence];
    rewrite list_lookup_insert_eq in Hi' by (eapply lookup_lt_Some; eauto);
    rewrite Hj in Hi; simplify_eq.
  - left. eauto.
  - left. eauto.
  - left. eauto.
  - right; left. exists c, rep. by rewrite Hc.
  - right; right; left. eauto.
  - right; right; right. by rewrite Hrel.
Qed.

(** A retry spends one retry and restarts the attempt: it more than
    pays for any progress made. *)
Lemma measure_retry now r : measure (retry now r) + rank (rq_pc r) < measure r.
Proof. unfold measure, retry. cbn. case_match; cbn; lia. Qed.

(** Every event lowers the weight of the request it changes. *)
Lemma measure_decreases w w' i r r' :
  reachable w -> step w w' -> w_reqs w !! i = Some r -> w_reqs w' !! i = Some r' -> r' <> r ->
  measure r' < measure r.
Proof.
  intros Hr Hs Hi Hi' Hne.
  assert (Hok : retries_ok r) by exact (Forall_lookup_1 _ _ _ _ (reachable_retries_ok w Hr) Hi).
  destruct (step_req_change w w' i r r' Hs Hi Hi' Hne)
    as [(c & rep & Hp & ->) | [(c & rep & Hp & ->) | [(due & Hp & ->) | (Hp & ->)]]].
  - unfold measure. cbn. rewrite Hp. destruct c; cbn; lia.
  - pose proof (measure_retry (w_now w) r) as Hrt. rewrite Hp in Hrt.
    destruct c; cbn [callback fst];
      [unfold handleSetnx | unfold handleGet | unfold handleGetSet | unfold handleDel];
      repeat case_match; cbn [rank] in Hrt;
      first [lia | unfold measure; cbn; rewrite Hp; cbn; lia].
  - unfold measure. rewrite Hp. cbn. lia.
  - unfold measure. rewrite Hp. unfold _release. case_match; cbn; lia.
Qed.

(** In a reachable world every request has a non-negative weight. *)
Lemma measure_nonneg w i r : reachable w -> w_reqs w !! i = Some r -> 0 <= measure r.
Proof.
  intros Hr Hi. pose proof (Forall_lookup_1 _ _ _ _ (reachable_retries_ok w Hr) Hi) as Hok.
  unfold measure. destruct Hok as [Hb | [Hp Hn]]; unfold within_budget in *;
    [destruct (rq_pc r) as [[]|[] ?| | | |]; cbn; lia | rewrite Hp; cbn; lia].
Qed.

(** One event of a reachable world turns request [r] into [r']. *)
Definition req_step (r' r : req) : Prop :=
  exists w w' i, reachable w /\ step w w' /\
    w_reqs w !! i = Some r /\ w_reqs w' !! i = Some r' /\ r' <> r.

(** *** C25. Termination of every request: whatever the interleaving,
    no request changes state infinitely often; every change lowers
    [measure], a natural number in every reachable world, so a request
    with retry budget [R] takes part in at most
    [11 * (max 0 (R + 1) + 1) + 9] events after [lock] created it. *)
Theorem request_steps_terminate : well_founded req_step.
Proof.
  apply (wf_incl _ _ (ltof req (fun r => Z.to_nat (measure r)))); [| apply well_founded_ltof].
  intros r' r (w & w' & i & Hr & Hs & Hi & Hi' & Hne). unfold ltof.
  pose proof (measure_decreases w w' i r r' Hr Hs Hi Hi' Hne).
  pose proof (measure_nonneg w' i r' (star_trans _ _ _ _ Hr (star_one _ _ _ Hs)) Hi').
  lia.
Qed.
End Termination.
