(* ===== verification/Serial.v ===== *)
(** * Serialized attempts: where the algorithm does ensure mutual exclusion

    [System.Race] shows that interleaving two requests' GET/GETSET pairs
    breaks mutual exclusion.  This file runs the same handlers with each
    acquisition attempt atomic: [settle] executes a request's command
    and runs its callback at once, with no other store command in
    between and one clock reading, until the request waits for a timer,
    holds the lock, or has failed.  An attempt sends at most three
    commands (SETNX, GET, GETSET), so [attempt] is [settle] with fuel 3,
    and a release at most one (DEL).  [cstep] is the serialized system:
    ticks, [lock] calls and timer firings followed by their whole
    attempt, and releases followed by their DEL.  Its invariant: an
    unexpired holder is alone on its key and the store holds its
    lease.  [attempts] repeats attempts a retry timer apart, as the
    [setTimeout] of [retry] does, with fuel counting the attempts. *)

From S2P Require Import Prelude JsValue Clock Store Config Acquire System.

Section Serial.
Context {St : Type} `{KVStore St}.
Implicit Types (w : world St) (r : req) (s : St).

(** Run the request's commands and callbacks back to back. *)
Fixpoint settle (fuel : nat) (now : Z) r s : req * list diag * St :=
  match fuel with
  | O => (r, [], s)
  | S n =>
      match rq_pc r with
      | PPending c =>
          let '(s', v) := exec_cmd c s in
          let '(r', ds) := callback now r c (ROk v) in
          let '(r'', ds', s'') := settle n now r' s' in
          (r'', ds ++ ds', s'')
      | _ => (r, [], s)
      end
  end.

(** One acquisition attempt: [aquire] and its three callbacks. *)
Definition attempt (now : Z) r s : req * list diag * St :=
  settle 3 now (aquire now r) s.

(** A release with its DEL. *)
Definition release_now (now : Z) r s : req * list diag * St :=
  let '(r1, ds1) := _release now r in
  let '(r2, ds2, s2) := settle 1 now r1 s in
  (r2, ds1 ++ ds2, s2).

Inductive cstep : world St -> world St -> Prop :=
| cstep_tick w d :
    0 < d ->
    cstep w (mk_world (w_now w + d) (w_store w) (w_reqs w) (w_log w))
| cstep_lock w cfg key r' ds s' :
    attempt (w_now w) (mk_req cfg (match key with Some k => k | None => "" end) 0 0
                              (PTimer (w_now w))) (w_store w) = (r', ds, s') ->
    cstep w (mk_world (w_now w) s' (w_reqs w ++ [r']) (w_log w ++ ds))
| cstep_timer w i r due r' ds s' :
    w_reqs w !! i = Some r -> rq_pc r = PTimer due -> due <= w_now w ->
    attempt (w_now w) r (w_store w) = (r', ds, s') ->
    cstep w (upd_req w i r' ds s')
| cstep_release w i r r' ds s' :
    w_reqs w !! i = Some r -> rq_pc r = PHolding ->
    release_now (w_now w) r (w_store w) = (r', ds, s') ->
    cstep w (upd_req w i r' ds s').

Definition creachable w : Prop := star cstep init_world w.

(** Request [i] is [r], holds the lock, and its lease is running. *)
Definition live w (i : nat) r : Prop :=
  w_reqs w !! i = Some r /\ rq_pc r = PHolding /\ unix (w_now w) < rq_expires r.

(** A live holder's lease is the one in the store, and no other
    request is live on its key. *)
Definition sinv w : Prop :=
  forall i r, live w i r ->
    kv_get (w_store w) (rq_fullKey r) = Some (number_to_string (rq_expires r)) /\
    forall j r', live w j r' -> rq_fullKey r' = rq_fullKey r -> j = i.

(** A request retrying on its own: each attempt runs when its timer is
    due, against the store the previous attempt left; the result is
    the request's last state and the number of attempts made. *)
Fixpoint attempts (fuel : nat) (now : Z) r s : req * nat :=
  match fuel with
  | O => (r, O)
  | S n =>
      let '(r', _, s') := attempt now r s in
      match rq_pc r' with
      | PTimer due => let '(r'', k) := attempts n due r' s' in (r'', S k)
      | _ => (r', 1%nat)
      end
  end.

(** ** What one attempt does to the store *)

(** An attempt by [r] on key [k] either leaves the store as it was
    and does not get the lock, or gets the lock, found no running
    lease on [k], and wrote its own lease there. *)
Lemma attempt_cases now r s :
  let '(r', _, s') := attempt now r s in
  rq_fullKey r' = rq_fullKey r /\ (forall c, rq_pc r' <> PPending c) /\
  ((s' = s /\ rq_pc r' <> PHolding) \/
   (rq_pc r' = PHolding /\
    rq_expires r' = unix now + cfg_timeout (rq_cfg r) /\
    (forall e0, kv_get s (rq_fullKey r) = Some (number_to_string e0) -> ~ unix now < e0) /\
    s' = kv_put s (rq_fullKey r) (number_to_string (rq_expires r')))).
Proof.
  unfold attempt, aquire.
  destruct (kv_get s (fullKey (rq_cfg r) (rq_key r))) as [v|] eqn:Hv;
    repeat progress (unfold rq_fullKey, set_pc;
      cbn -[js_lt_num unix expires_at number_to_string kv_put kv_get retry]; rewrite ?Hv).
  - destruct (js_lt_num (unix now) (JStr v)) eqn:Hlt;
      repeat progress (unfold set_pc;
        cbn -[js_lt_num unix expires_at number_to_string kv_put kv_get retry];
        rewrite ?Hv, ?Hlt).
    + unfold retry. cbn. destruct_if; cbn;
        (split_and!; [done | by intros c | left; split; [done | discriminate]]).
    + split_and!; [done | by intros c | right; split_and!; [done | by rewrite expires_at_spec | | done]].
      intros e0 [= ->]. rewrite js_lt_num_lease in Hlt. lia.
  - split_and!; [done | by intros c | right; split_and!; [done | by rewrite expires_at_spec | congruence | done]].
Qed.

(** A release ends the request; while the lease runs it deletes the
    request's key and nothing else, afterwards it leaves the store. *)
Lemma release_cases now r s :
  let '(r', _, s') := release_now now r s in
  rq_pc r' = PReleased /\
  (rq_expires r <= unix now -> s' = s) /\
  (unix now < rq_expires r ->
     kv_get s' (rq_fullKey r) = None /\
     forall k, k <> rq_fullKey r -> kv_get s' k = kv_get s k).
Proof.
  unfold release_now, _release. case_ltb; cbn.
  - destruct (kv_get s (rq_fullKey r)) eqn:Hk; cbn.
    + split_and!; [done | lia | intros _; split; [apply kv_get_del_eq |]].
      intros k Hne. by apply kv_get_del_ne.
    + split_and!; [done | lia | done].
  - split_and!; [done | done | lia].
Qed.

(** ** The serialized invariant *)


(** Replacing entry [n] (absent or not holding) by the outcome [rA] of
    an attempt keeps the invariant. *)
Lemma sinv_replace w n rA s' l' log' :
  sinv w ->
  (forall r, w_reqs w !! n = Some r -> rq_pc r <> PHolding) ->
  (forall j, j <> n -> l' !! j = w_reqs w !! j) -> l' !! n = Some rA ->
  ((s' = w_store w /\ rq_pc rA <> PHolding) \/
   (rq_pc rA = PHolding /\
    (forall e0, kv_get (w_store w) (rq_fullKey rA) = Some (number_to_string e0) ->
                ~ unix (w_now w) < e0) /\
    s' = kv_put (w_store w) (rq_fullKey rA) (number_to_string (rq_expires rA)))) ->
  sinv (mk_world (w_now w) s' l' log').
Proof.
  intros Hinv Hold Hother Hn Hatt i r (Hi & Hp & Hlt). simpl in *.
  assert (Hlive : forall j r', j <> n -> l' !! j = Some r' -> rq_pc r' = PHolding ->
                  unix (w_now w) < rq_expires r' -> live w j r').
  { intros j r' Hjn Hj Hp' Hlt'. rewrite Hother in Hj by done. done. }
  destruct (decide (i = n)) as [Hin | Hin]; [subst i |].
  - rewrite Hn in Hi. simplify_eq.
    destruct Hatt as [[_ Hnh] | (_ & Hfree & ->)]; [done |].
    split; [apply kv_get_put_eq |].
    intros j r' (Hj & Hp' & Hlt') Hk; simpl in Hj, Hlt'. destruct (decide (j = n)) as [Hjn | Hjn]; [done |].
    destruct (Hinv j r' (Hlive j r' Hjn Hj Hp' Hlt')) as [Hs _].
    rewrite Hk in Hs. by destruct (Hfree _ Hs).
  - destruct (Hinv i r (Hlive i r Hin Hi Hp Hlt)) as [Hs Huniq].
    destruct Hatt as [[-> Hnh] | (HpA & Hfree & ->)].
    + split; [done |]. intros j r' (Hj & Hp' & Hlt') Hk; simpl in Hj, Hlt'.
      destruct (decide (j = n)) as [Hjn | Hjn]; [subst j; rewrite Hn in Hj; by simplify_eq |].
      by apply (Huniq j r'); [apply Hlive |].
    + assert (Hne : rq_fullKey rA <> rq_fullKey r).
      { intros Heq. rewrite Heq in Hfree. by destruct (Hfree _ Hs). }
      split; [by rewrite kv_get_put_ne |]. intros j r' (Hj & Hp' & Hlt') Hk; simpl in Hj, Hlt'.
      destruct (decide (j = n)) as [Hjn | Hjn]; [subst j; rewrite Hn in Hj; by simplify_eq |].
      by apply (Huniq j r'); [apply Hlive |].
Qed.

Lemma attempt_effect now r s r' ds s' :
  attempt now r s = (r', ds, s') ->
  (s' = s /\ rq_pc r' <> PHolding) \/
  (rq_pc r' = PHolding /\
   (forall e0, kv_get s (rq_fullKey r') = Some (number_to_string e0) -> ~ unix now < e0) /\
   s' = kv_put s (rq_fullKey r') (number_to_string (rq_expires r'))).
Proof.
  intros Ha. pose proof (attempt_cases now r s) as Hc. rewrite Ha in Hc.
  destruct Hc as [Hk [_ [Hnone | (Hp & _ & Hfree & Hs)]]]; [by left | right].
  rewrite Hk. by split_and!.
Qed.

Lemma live_upd w i r' ds s' j rj :
  rq_pc r' <> PHolding -> live (upd_req w i r' ds s') j rj -> j <> i /\ live w j rj.
Proof.
  intros Hr' (Hj & Hp & Hlt). simpl in Hj, Hlt.
  destruct (decide (j = i)) as [-> | Hji].
  - apply list_lookup_insert_Some in Hj as [(_ & -> & _) | (? & _)]; done.
  - rewrite list_lookup_insert_ne in Hj by done. done.
Qed.

Lemma sinv_release w i r r' ds s' :
  sinv w -> w_reqs w !! i = Some r -> rq_pc r = PHolding ->
  release_now (w_now w) r (w_store w) = (r', ds, s') ->
  sinv (upd_req w i r' ds s').
Proof.
  intros Hinv Hi Hp Hrel. pose proof (release_cases (w_now w) r (w_store w)) as Hc.
  rewrite Hrel in Hc. destruct Hc as (Hr' & Hlate & Htimely).
  assert (Hnh : rq_pc r' <> PHolding) by (rewrite Hr'; done).
  intros j rj Hlive. destruct (live_upd _ _ _ _ _ _ _ Hnh Hlive) as [Hji Hlw].
  destruct (Hinv j rj Hlw) as [Hs Huniq]. split.
  - simpl. destruct (Z_lt_le_dec (unix (w_now w)) (rq_expires r)) as [Hlt | Hge].
    + destruct (Htimely Hlt) as [_ Hframe]. rewrite Hframe; [done |].
      intros Heq. apply Hji. symmetry. by apply (Huniq i r).
    + by rewrite Hlate.
  - intros j' rj' Hlive' Hk. destruct (live_upd _ _ _ _ _ _ _ Hnh Hlive') as [_ Hlw'].
    by apply (Huniq j' rj').
Qed.

Lemma cstep_sinv w w' : sinv w -> cstep w w' -> sinv w'.
Proof.
  intros Hinv Hstep.
  destruct Hstep as [w d Hd|w cfg key r' ds s' Ha|w i r due r' ds s' Hi Hp Hdue Ha
                    |w i r r' ds s' Hi Hp Hrel].
  - intros i r (Hi & Hp & Hlt). simpl in *.
    assert (Hlw : live w i r).
    { split_and!; [done | done |]. pose proof (unix_mono (w_now w) (w_now w + d)). lia. }
    destruct (Hinv i r Hlw) as [Hs Huniq]. split; [done |].
    intros j r' (Hj & Hp' & Hlt') Hk. simpl in *. apply (Huniq j r'); [| done].
    split_and!; [done | done |]. pose proof (unix_mono (w_now w) (w_now w + d)). lia.
  - apply (sinv_replace w (length (w_reqs w)) r'); [done | | | | by eapply attempt_effect].
    + intros r0 Hr0. apply lookup_lt_Some in Hr0. lia.
    + intros j Hj. destruct (decide (j < length (w_reqs w))%nat).
      * by apply lookup_app_l.
      * rewrite !lookup_ge_None_2; [done | lia | rewrite length_app; simpl; lia].
    + by apply list_lookup_middle.
  - apply (sinv_replace w i r'); [done | | | | by eapply attempt_effect].
    + intros r0 Hr0. rewrite Hi in Hr0. simplify_eq. by rewrite Hp.
    + intros j Hj. by apply list_lookup_insert_ne.
    + apply list_lookup_insert_eq. by eapply lookup_lt_Some.
  - by eapply sinv_release.
Qed.

Lemma sinv_init : sinv init_world.
Proof. intros i r (Hi & _). done. Qed.

Lemma creachable_sinv w : creachable w -> sinv w.
Proof. intros Hr. eapply (star_ind_inv cstep sinv); [apply cstep_sinv | exact Hr | apply sinv_init]. Qed.

(** The invariant gives mutual exclusion. *)
Lemma sinv_exclusive w : sinv w -> exclusive w.
Proof.
  intros Hinv k i j (ri & Hi & Hpi & <- & Hlti) (rj & Hj & Hpj & Hk & Hltj).
  symmetry. by apply (proj2 (Hinv i ri (conj Hi (conj Hpi Hlti))) j rj).
Qed.

(** *** C1. Mutual exclusion when attempts are serialized: in every world
    the serialized system reaches, at most one request holds an
    unexpired lease on a store key, and the store holds that lease. *)
Theorem serial_mutual_exclusion w :
  creachable w ->
  exclusive w /\
  forall i r, live w i r ->
    kv_get (w_store w) (rq_fullKey r) = Some (number_to_string (rq_expires r)).
Proof.
  intros Hr. pose proof (creachable_sinv w Hr) as Hinv.
  split; [by apply sinv_exclusive | intros i r Hl; apply (Hinv i r Hl)].
Qed.

(** ** Attempts on a free key and on a held key *)

Ltac run_attempt Hv :=
  unfold attempt, aquire, rq_fullKey in *;
  repeat progress (unfold rq_fullKey, set_pc;
    cbn -[js_lt_num unix expires_at number_to_string kv_put kv_get retry]; rewrite ?Hv).

(** On a free key, the first SETNX wins: the request holds the lock
    with lease [expires_at now timeout], written to the store. *)
Lemma attempt_fresh now r s :
  kv_get s (rq_fullKey r) = None ->
  attempt now r s =
    (set_pc (aquire now r) PHolding, [],
     kv_put s (rq_fullKey r) (number_to_string (expires_at now (cfg_timeout (rq_cfg r))))).
Proof. intros Hv. run_attempt Hv. reflexivity. Qed.

(** On a key whose lease is still running, the attempt writes nothing
    and ends in [retry]. *)
Lemma attempt_contended now r s e0 :
  kv_get s (rq_fullKey r) = Some (number_to_string e0) -> unix now < e0 ->
  attempt now r s = (retry now (aquire now r), [], s).
Proof.
  intros Hv Hlt. run_attempt Hv.
  rewrite js_lt_num_lease. apply Z.ltb_lt in Hlt as ->. cbn.
  unfold retry. cbn. by destruct_if.
Qed.


(** On a key whose lease has run out, the SETNX fails, the GET sees
    the old lease expired, and the GETSET takes the key over: the
    request holds the lock with a fresh lease. *)
Lemma attempt_expired now r s e0 :
  kv_get s (rq_fullKey r) = Some (number_to_string e0) -> e0 <= unix now ->
  attempt now r s =
    (set_pc (aquire now r) PHolding, [],
     kv_put s (rq_fullKey r) (number_to_string (expires_at now (cfg_timeout (rq_cfg r))))).
Proof.
  intros Hv Hle. run_attempt Hv.
  apply Z.ltb_ge in Hle as Hb. rewrite js_lt_num_lease, Hb. run_attempt Hv.
  rewrite js_lt_num_lease, Hb. reflexivity.
Qed.

Lemma attempts_contended m fuel now r s e0 :
  (0 < m <= fuel)%nat ->
  rq_retries r + Z.of_nat m = cfg_retries (rq_cfg r) + 2 ->
  kv_get s (rq_fullKey r) = Some (number_to_string e0) ->
  unix now + Z.of_nat m <= e0 ->
  let '(r', n) := attempts fuel now r s in
  rq_pc r' = PFailed (MaxRetriesError (rq_key r)) /\ n = m.
Proof.
  revert fuel now r. induction m as [|m IH]; intros fuel now r Hm Hc Hv He; [lia |].
  destruct fuel as [|fuel]; [lia |]. simpl attempts.
  rewrite (attempt_contended now r s e0) by (done || lia).
  unfold retry at 1. cbn [rq_pc rq_retries rq_cfg aquire].
  destruct (cfg_retries (rq_cfg r) <? rq_retries r) eqn:Hlt.
  - unfold retry. simpl. rewrite Hlt. split; [done |]. apply Z.ltb_lt in Hlt. lia.
  - apply Z.ltb_ge in Hlt.
    assert (P1 : (0 < m <= fuel)%nat) by lia.
    assert (P2 : rq_retries (retry now (aquire now r)) + Z.of_nat m =
                 cfg_retries (rq_cfg (retry now (aquire now r))) + 2) by (cbn; lia).
    assert (P4 : unix (now + retry_delay) + Z.of_nat m <= e0)
      by (rewrite unix_after_delay; lia).
    specialize (IH _ _ _ P1 P2 Hv P4).
    destruct (attempts fuel (now + retry_delay) (retry now (aquire now r)) s) as [r'' k].
    destruct IH as [Hp ->]. split; [exact Hp | done].
Qed.

(** A request [m] seconds before the held lease runs out, with budget
    left for [m] retries, waits through [m] contended attempts and takes
    the key over on the next one. *)
Lemma attempts_takeover m fuel now r s e0 :
  (m < fuel)%nat ->
  e0 - unix now = Z.of_nat m ->
  rq_retries r + Z.of_nat m <= cfg_retries (rq_cfg r) + 1 ->
  kv_get s (rq_fullKey r) = Some (number_to_string e0) ->
  let '(r', n) := attempts fuel now r s in
  rq_pc r' = PHolding /\ n = S m /\ rq_expires r' = e0 + cfg_timeout (rq_cfg r).
Proof.
  revert fuel now r. induction m as [|m IH]; intros fuel now r Hm He Hc Hv;
    (destruct fuel as [|fuel]; [lia |]); simpl attempts.
  - rewrite (attempt_expired now r s e0) by (done || lia). cbn.
    rewrite expires_at_spec. split_and!; [done | done | lia].
  - rewrite (attempt_contended now r s e0) by (done || lia).
    unfold retry at 1. cbn [rq_pc rq_retries rq_cfg aquire].
    destruct (Z.ltb_spec (cfg_retries (rq_cfg r)) (rq_retries r)) as [Hlt | Hge]; [lia |].
    assert (P2 : e0 - unix (now + retry_delay) = Z.of_nat m)
      by (rewrite unix_after_delay; lia).
    assert (P3 : rq_retries (retry now (aquire now r)) + Z.of_nat m <=
                 cfg_retries (rq_cfg (retry now (aquire now r))) + 1) by (cbn; lia).
    specialize (IH fuel _ _ ltac:(lia) P2 P3 Hv).
    destruct (attempts fuel (now + retry_delay) (retry now (aquire now r)) s) as [r'' k].
    destruct IH as (Hp & -> & Hexp). split_and!; [exact Hp | done | exact Hexp].
Qed.

(** *** C5. The retry budget: a request whose key stays held fails with
    [MaxRetriesError] after exactly [retries + 2] attempts (contention
    checks), not [retries + 1]: [retries++ > _this._retries] lets the
    counter reach [retries + 1] before giving up.  Enough fuel is any
    fuel of at least [retries + 2]. *)
Theorem retry_budget cfg k now s e0 fuel :
  0 <= cfg_retries cfg ->
  kv_get s (fullKey cfg k) = Some (number_to_string e0) ->
  unix now + cfg_retries cfg + 2 <= e0 ->
  (Z.to_nat (cfg_retries cfg) + 2 <= fuel)%nat ->
  let '(r', n) := attempts fuel now (mk_req cfg k 0 0 (PTimer now)) s in
  rq_pc r' = PFailed (MaxRetriesError k) /\ n = (Z.to_nat (cfg_retries cfg) + 2)%nat.
Proof.
  intros HR Hv He Hf.
  apply (attempts_contended (Z.to_nat (cfg_retries cfg) + 2) fuel now
           (mk_req cfg k 0 0 (PTimer now)) s e0); simpl; [lia | lia | done | lia].
Qed.

(** *** C18. Waiting out a lease (spec section 8, third property and
    scenario): a new request on a key whose lease [e0] runs out within
    [retries + 1] seconds, with no other request touching the key,
    retries once a second and takes the key over by GETSET on attempt
    [e0 - unix now + 1], holding it until [e0 + timeout].  Enough fuel
    is that many attempts. *)
Theorem takeover_after_expiry cfg k now s e0 fuel :
  0 <= cfg_retries cfg ->
  kv_get s (fullKey cfg k) = Some (number_to_string e0) ->
  unix now <= e0 <= unix now + cfg_retries cfg + 1 ->
  (Z.to_nat (e0 - unix now) + 1 <= fuel)%nat ->
  let '(r', n) := attempts fuel now (mk_req cfg k 0 0 (PTimer now)) s in
  rq_pc r' = PHolding /\ n = (Z.to_nat (e0 - unix now) + 1)%nat /\
  rq_expires r' = e0 + cfg_timeout cfg.
Proof.
  intros HR Hv He Hf.
  pose proof (attempts_takeover (Z.to_nat (e0 - unix now)) fuel now
                (mk_req cfg k 0 0 (PTimer now)) s e0) as Ht.
  simpl in Ht. destruct (attempts _ _ _ _) as [r' n].
  destruct Ht as (Hp & -> & Hexp); [lia | lia | lia | done |]. split_and!; [done | lia | done].
Qed.

(** *** C7. A lock on a key absent from the store is acquired by its first
    attempt, with no retry counted and the lease [unix now + timeout]
    written under [prefix + key]. *)
Theorem lock_fresh_key cfg k now s fuel :
  kv_get s (fullKey cfg k) = None -> (1 <= fuel)%nat ->
  let '(r', n) := attempts fuel now (mk_req cfg k 0 0 (PTimer now)) s in
  rq_pc r' = PHolding /\ rq_retries r' = 0 /\ n = 1%nat /\
  rq_expires r' = unix now + cfg_timeout cfg.
Proof.
  intros Hv Hf. destruct fuel as [|fuel]; [lia |]. simpl attempts.
  rewrite attempt_fresh by done. simpl. by rewrite expires_at_spec.
Qed.

(** *** C8. A release before the lease runs out frees the key: the next
    [lock] on the same store key acquires it on its first attempt. *)
Theorem release_then_lock now r s r1 ds1 s1 cfg k :
  unix now < rq_expires r -> fullKey cfg k = rq_fullKey r ->
  release_now now r s = (r1, ds1, s1) ->
  rq_pc (attempt now (mk_req cfg k 0 0 (PTimer now)) s1).1.1 = PHolding.
Proof.
  intros Hlt Hk Hrel. pose proof (release_cases now r s) as Hc. rewrite Hrel in Hc.
  destruct Hc as (_ & _ & Htimely). destruct (Htimely Hlt) as [Hnone _].
  rewrite attempt_fresh; [done |]. unfold rq_fullKey. simpl. by rewrite Hk.
Qed.
End Serial.

(** ** Witnesses on concrete requests and stores *)

Module SerialWitness.
Definition cfg : config := mk_config "p:" 10 3.
Definition r0 : req := mk_req cfg "x" 0 0 (PTimer 0).
Definition w0 : world (gmap string string) := init_world.
Definition w1 : world (gmap string string) :=
  mk_world (w_now w0) (attempt 0 r0 (w_store w0)).2
           (w_reqs w0 ++ [(attempt 0 r0 (w_store w0)).1.1])
           (w_log w0 ++ (attempt 0 r0 (w_store w0)).1.2).

Lemma serial_mutual_exclusion_witness :
  creachable w1 /\ exclusive w1 /\
  forall i r, live w1 i r ->
    kv_get (w_store w1) (rq_fullKey r) = Some (number_to_string (rq_expires r)).
Proof.
  assert (Hr : creachable w1).
  { apply (star_step w0 w1 w1); [| apply star_refl].
    apply (cstep_lock w0 cfg (Some "x")). vm_compute. reflexivity. }
  split; [exact Hr | apply (serial_mutual_exclusion w1 Hr)].
Defined.

Lemma retry_budget_witness :
  let s : gmap string string := {[ "p:x" := number_to_string 100 ]} in
  let '(r', n) := attempts 5 0 r0 s in
  rq_pc r' = PFailed (MaxRetriesError "x") /\ n = 5%nat.
Proof.
  intros s. apply (retry_budget cfg "x" 0 s 100 5);
    [vm_compute; discriminate | reflexivity | vm_compute; discriminate | simpl; lia].
Defined.

Lemma lock_fresh_key_witness :
  let '(r', n) := attempts 1 0 r0 (∅ : gmap string string) in
  rq_pc r' = PHolding /\ rq_retries r' = 0 /\ n = 1%nat /\ rq_expires r' = unix 0 + 10.
Proof. apply (lock_fresh_key cfg "x" 0 ∅ 1); [reflexivity | lia]. Defined.

Lemma release_then_lock_witness :
  let held := mk_req cfg "x" 0 10 PHolding in
  let s : gmap string string := {[ "p:x" := number_to_string 10 ]} in
  let '(r1, ds1, s1) := release_now 0 held s in
  rq_pc (attempt 0 r0 s1).1.1 = PHolding.
Proof.
  intros held s. destruct (release_now 0 held s) as [[r1 ds1] s1] eqn:E.
  apply (release_then_lock 0 held s r1 ds1 s1 cfg "x");
    [vm_compute; reflexivity | reflexivity | exact E].
Defined.
Lemma takeover_after_expiry_witness :
  let s : gmap string string := {[ "p:x" := number_to_string 2 ]} in
  let '(r', n) := attempts 4 0 r0 s in
  rq_pc r' = PHolding /\ n = 3%nat /\ rq_expires r' = 2 + 10.
Proof.
  intros s. apply (takeover_after_expiry cfg "x" 0 s 2 4);
    [vm_compute; discriminate | reflexivity | vm_compute; split; discriminate | simpl; lia].
Defined.
End SerialWitness.
