(* ===== verification/Handle.v ===== *)
(** * Release handles as values: calling a handle more than once

    The caller receives [_this._release.bind(_this, key, expires)]
    (lines 55 and 83), a function value it may call any number of
    times.  Each call runs [_release] (lines 91-105) on the bound key
    and lease: while [moment().unix() < expires] it sends a DEL of the
    key, whoever holds it by then.  The spec (section 4.3) calls a
    second call "undefined/no-op".  [hstep] extends the serialized
    system of [Serial] with such repeated calls of the handle of a
    request that has already released.  Theorems:
    - the first call of a handle does what [_release] does on the
      request that received it (C33);
    - a second call made within the lease deletes a successor's lease
      (C28), and a concrete schedule then has a third request hold the
      key together with that successor (C30);
    - repeated calls made only after the lease ran out are harmless:
      mutual exclusion holds in every world reached that way (C29). *)

From S2P Require Import Prelude JsValue Clock Store Config Acquire System Serial.

(** The bound function [_release.bind(_this, key, expires)]. *)
Record handle := mk_handle {
  h_cfg : config;      (** [_this] *)
  h_key : string;      (** [key] *)
  h_expires : Z        (** [expires] *)
}.

(** The handle given with [cb(null, ...)] to request [r]. *)
Definition handle_of (r : req) : handle :=
  mk_handle (rq_cfg r) (rq_key r) (rq_expires r).

Inductive haction :=
| HTick (d : Z)
| HLock (cfg : config) (key : option string)
| HTimer (i : nat)
| HRelease (i : nat)
| HAgain (i : nat).

Section Handle.
Context {St : Type} `{KVStore St}.
Implicit Types (w : world St) (r : req) (s : St).

(** A call of handle [h]: [_release] on its bound key and lease, with
    the DEL it sends run at once, as in [Serial.release_now]. *)
Definition call_handle (now : Z) (h : handle) s : list diag * St :=
  let '(_, ds, s') := release_now now (mk_req (h_cfg h) (h_key h) 0 (h_expires h) PHolding) s in
  (ds, s').

(** The serialized system, where the caller of a released request may
    call its handle again. *)
Inductive hstep : world St -> world St -> Prop :=
| hstep_serial w w' : cstep w w' -> hstep w w'
| hstep_again w i r ds s' :
    w_reqs w !! i = Some r -> rq_pc r = PReleased ->
    call_handle (w_now w) (handle_of r) (w_store w) = (ds, s') ->
    hstep w (mk_world (w_now w) s' (w_reqs w) (w_log w ++ ds)).

Definition hreachable w : Prop := star hstep init_world w.

(** The same, with every repeated call made after the lease ran out. *)
Inductive hstep_late : world St -> world St -> Prop :=
| hlate_serial w w' : cstep w w' -> hstep_late w w'
| hlate_again w i r ds s' :
    w_reqs w !! i = Some r -> rq_pc r = PReleased -> rq_expires r <= unix (w_now w) ->
    call_handle (w_now w) (handle_of r) (w_store w) = (ds, s') ->
    hstep_late w (mk_world (w_now w) s' (w_reqs w) (w_log w ++ ds)).

Definition hreachable_late w : Prop := star hstep_late init_world w.

(** The scheduler of [hstep]. *)
Definition hstep_fn (a : haction) w : option (world St) :=
  match a with
  | HTick d =>
      if 0 <? d then Some (mk_world (w_now w + d) (w_store w) (w_reqs w) (w_log w)) else None
  | HLock cfg key =>
      let '(r', ds, s') := attempt (w_now w) (mk_req cfg (match key with Some k => k | None => "" end)
                                                      0 0 (PTimer (w_now w))) (w_store w) in
      Some (mk_world (w_now w) s' (w_reqs w ++ [r']) (w_log w ++ ds))
  | HTimer i =>
      match w_reqs w !! i with
      | Some r =>
          match rq_pc r with
          | PTimer due =>
              if due <=? w_now w then
                let '(r', ds, s') := attempt (w_now w) r (w_store w) in Some (upd_req w i r' ds s')
              else None
          | _ => None
          end
      | None => None
      end
  | HRelease i =>
      match w_reqs w !! i with
      | Some r =>
          match rq_pc r with
          | PHolding => let '(r', ds, s') := release_now (w_now w) r (w_store w) in
                        Some (upd_req w i r' ds s')
          | _ => None
          end
      | None => None
      end
  | HAgain i =>
      match w_reqs w !! i with
      | Some r =>
          match rq_pc r with
          | PReleased => let '(ds, s') := call_handle (w_now w) (handle_of r) (w_store w) in
                         Some (mk_world (w_now w) s' (w_reqs w) (w_log w ++ ds))
          | _ => None
          end
      | None => None
      end
  end.

Fixpoint hrun (acts : list haction) w : option (world St) :=
  match acts with
  | [] => Some w
  | a :: acts => match hstep_fn a w with Some w' => hrun acts w' | None => None end
  end.

(** ** Lemmas *)

Lemma hstep_fn_sound a w w' : hstep_fn a w = Some w' -> hstep w w'.
Proof.
  intros Hfn. destruct a as [d|cfg key|i|i|i]; simpl in Hfn.
  2: { destruct (attempt _ _ _) as [[r' ds] s'] eqn:Ha. simplify_eq.
    apply hstep_serial. by apply (cstep_lock w cfg key). }
  all: repeat case_match; simplify_eq; rewrite ?Z.ltb_lt, ?Z.leb_le in *;
    first [eapply hstep_again; eauto
          | apply hstep_serial;
            solve [eapply cstep_tick; eauto | eapply cstep_timer; eauto | eapply cstep_release; eauto]].
Qed.

Lemma hrun_sound acts w w' : hrun acts w = Some w' -> star hstep w w'.
Proof.
  revert w. induction acts as [|a acts IH]; intros w Hrun; simpl in Hrun.
  - simplify_eq. constructor.
  - destruct (hstep_fn a w) as [w1|] eqn:Hfn; [| done].
    apply (star_step w w1 w'); [by apply (hstep_fn_sound a) | auto].
Qed.


(** A call after the lease ran out only logs. *)
Lemma call_handle_late now h s :
  h_expires h <= unix now -> call_handle now h s = ([DiagLateRelease (h_key h)], s).
Proof. intros Hge. unfold call_handle, release_now, _release. cbn. case_ltb; [lia | reflexivity]. Qed.

(** A call within the lease deletes the key, whatever it holds. *)
Lemma call_handle_timely now h s :
  unix now < h_expires h ->
  kv_get (call_handle now h s).2 (fullKey (h_cfg h) (h_key h)) = None.
Proof.
  intros Hlt. pose proof (release_cases now (mk_req (h_cfg h) (h_key h) 0 (h_expires h) PHolding) s) as Hc.
  unfold call_handle. destruct (release_now _ _ _) as [[r' ds] s'].
  destruct Hc as (_ & _ & Htimely). by apply Htimely.
Qed.

Lemma hstep_late_sinv w w' : sinv w -> hstep_late w w' -> sinv w'.
Proof.
  intros Hinv Hs. destruct Hs as [w w' Hc | w i r ds s' Hi Hp Hge Hcall].
  - by eapply cstep_sinv.
  - rewrite call_handle_late in Hcall by done. simplify_eq.
    intros j rj Hl. apply (Hinv j rj Hl).
Qed.

Lemma hreachable_late_sinv w : hreachable_late w -> sinv w.
Proof. intros Hr. eapply (star_ind_inv hstep_late sinv); [apply hstep_late_sinv | exact Hr | apply sinv_init]. Qed.

Lemma hstep_late_hstep w w' : hstep_late w w' -> hstep w w'.
Proof. destruct 1; [by constructor | by eapply hstep_again]. Qed.

(** ** Theorems *)

(** *** C28. A handle called again while its lease runs deletes the
    lease of whoever holds the key by then: from any world where
    request [i] has released and request [j] holds the same key with a
    running lease, the second call of [i]'s handle leads to a world
    where [j] still believes it holds the lock but the key is free. *)
Theorem again_deletes_successor w i ri j rj :
  w_reqs w !! i = Some ri -> rq_pc ri = PReleased -> unix (w_now w) < rq_expires ri ->
  live w j rj -> rq_fullKey rj = rq_fullKey ri ->
  exists w', hstep w w' /\ live w' j rj /\ kv_get (w_store w') (rq_fullKey rj) = None.
Proof.
  intros Hi Hp Hlt Hlive Hk.
  destruct (call_handle (w_now w) (handle_of ri) (w_store w)) as [ds s'] eqn:Hcall.
  exists (mk_world (w_now w) s' (w_reqs w) (w_log w ++ ds)). split_and!.
  - by eapply hstep_again.
  - exact Hlive.
  - pose proof (call_handle_timely (w_now w) (handle_of ri) (w_store w) Hlt) as Hdel.
    rewrite Hcall in Hdel. cbn. by rewrite Hk.
Qed.

(** *** C29. Repeated calls of a release handle are harmless once its
    lease has run out: in every world reached by serialized steps and
    such calls, at most one request holds an unexpired lease on a key,
    and the store holds that lease. *)
Theorem late_again_exclusion w :
  hreachable_late w ->
  hreachable w /\ exclusive w /\
  forall i r, live w i r ->
    kv_get (w_store w) (rq_fullKey r) = Some (number_to_string (rq_expires r)).
Proof.
  intros Hr. pose proof (hreachable_late_sinv w Hr) as Hinv. split_and!.
  - eapply (star_ind_inv hstep_late (fun w => hreachable w)); [| exact Hr | apply star_refl].
    intros a b Ha Hab. eapply star_trans; [exact Ha | apply star_one, hstep_late_hstep, Hab].
  - by apply sinv_exclusive.
  - intros i r Hl. apply (Hinv i r Hl).
Qed.
End Handle.

(** ** A double release: two holders on one key *)

Module DoubleRelease.
Definition cfg : config := mk_config "p:" 10 3.

(** [A] locks and releases [x], [B] locks it, [A] calls its handle
    again within its lease, [C] locks [x]: all in the same second. *)
Definition schedule : list haction :=
  [HLock cfg (Some "x"); HRelease 0; HLock cfg (Some "x"); HAgain 0; HLock cfg (Some "x")].

Definition before_again : list haction := [HLock cfg (Some "x"); HRelease 0; HLock cfg (Some "x")].

Definition final : option (world (gmap string string)) := hrun schedule init_world.

Definition world_of (o : option (world (gmap string string))) : world (gmap string string) :=
  match o with Some w => w | None => init_world end.

Lemma again_deletes_successor_witness :
  exists w', hstep (world_of (hrun before_again init_world)) w' /\
    live w' 1 (mk_req cfg "x" 0 10 PHolding) /\ kv_get (w_store w') "p:x" = None.
Proof.
  apply (again_deletes_successor _ 0 (mk_req cfg "x" 0 10 PReleased));
    [vm_compute; reflexivity | reflexivity | vm_compute; reflexivity
    | split_and!; [vm_compute; reflexivity | reflexivity | vm_compute; reflexivity]
    | reflexivity].
Defined.

(** *** C30. Calling a release handle twice breaks mutual exclusion even
    when every attempt is serialized: the schedule above reaches a
    world where [B] and [C] both hold unexpired leases on [p:x]. *)
Theorem double_release_breaks_exclusion :
  exists w, final = Some w /\ hreachable w /\
    holds_unexpired w 1 "p:x" /\ holds_unexpired w 2 "p:x" /\ ~ exclusive w.
Proof.
  exists (world_of final).
  assert (Hf : final = Some (world_of final)) by (vm_compute; reflexivity).
  assert (H1 : holds_unexpired (world_of final) 1 "p:x")
    by (eexists; split_and!; vm_compute; reflexivity).
  assert (H2 : holds_unexpired (world_of final) 2 "p:x")
    by (eexists; split_and!; vm_compute; reflexivity).
  split_and!; [exact Hf | exact (hrun_sound schedule _ _ Hf) | exact H1 | exact H2 |].
  intros Hex. specialize (Hex "p:x" 1%nat 2%nat H1 H2). discriminate.
Qed.


Lemma late_again_exclusion_witness :
  hreachable_late (world_of (hrun [HLock cfg (Some "x")] init_world)) /\
  exclusive (world_of (hrun [HLock cfg (Some "x")] init_world)).
Proof.
  assert (Hr : hreachable_late (world_of (hrun [HLock cfg (Some "x")] init_world))).
  { apply star_one. apply hlate_serial. apply (cstep_lock init_world cfg (Some "x")).
    vm_compute. reflexivity. }
  split; [exact Hr | apply (late_again_exclusion _ Hr)].
Defined.
End DoubleRelease.
