(* ===== verification/LockSpec.v ===== *)
(** * The abstract lease lock, and the serialized system's refinement of it

    What the lock promises its callers, stated without requests,
    callbacks or Redis: a table of leases, one per key, read against a
    clock.  An acquisition succeeds only on a key that is free or whose
    lease has run out, and installs the lease [unix now + T]; a release
    removes a lease only while it is running.  [astep] is that
    specification as a step relation on [alock].

    [abs] relates a world of the serialized system ([Serial.cstep]) to
    the table its store encodes: the store holds [String(e)] exactly
    where the table holds [e].  The refinement theorem says every run
    of the serialized system is matched, step for step or by stuttering,
    by a run of the specification. *)

From S2P Require Import Prelude JsValue Clock Store Config Acquire System Serial.

(** ** The specification *)

Record alock := mk_alock {
  al_now : Z;
  al_lease : string -> option Z
}.

Definition al_set (a : alock) (k : string) (o : option Z) : alock :=
  mk_alock (al_now a) (fun k' => if decide (k = k') then o else al_lease a k').

(** Key [k] may be granted: it has no lease, or its lease has run out. *)
Definition al_free (a : alock) (k : string) : Prop :=
  forall e, al_lease a k = Some e -> e <= unix (al_now a).

Inductive astep : alock -> alock -> Prop :=
| astep_tick a d :
    0 < d -> astep a (mk_alock (al_now a + d) (al_lease a))
| astep_acquire a k T :
    al_free a k -> astep a (al_set a k (Some (unix (al_now a) + T)))
| astep_release a k e :
    al_lease a k = Some e -> unix (al_now a) < e -> astep a (al_set a k None).

Definition alock_init : alock := mk_alock 0 (fun _ => None).

(** ** The abstraction *)

Section Refinement.
Context {St : Type} `{KVStore St}.
Implicit Types (w : world St) (a : alock).

Definition abs w a : Prop :=
  al_now a = w_now w /\
  forall k, kv_get (w_store w) k = option_map number_to_string (al_lease a k).

(** ** One serialized step is matched by at most one specification step *)

Lemma abs_set w a k o s' l log :
  abs w a ->
  (forall k', kv_get s' k' = if decide (k = k') then option_map number_to_string o
                             else kv_get (w_store w) k') ->
  abs (mk_world (w_now w) s' l log) (al_set a k o).
Proof.
  intros [Hnow Hs] Hs'. split; [done |]. intros k'. simpl. rewrite Hs'.
  case_decide; [done | apply Hs].
Qed.

Lemma abs_keep w a l log : abs w a -> abs (mk_world (w_now w) (w_store w) l log) a.
Proof. done. Qed.

(** An attempt either changes nothing the specification sees, or grants
    a free key with the lease [unix now + timeout]. *)
Lemma attempt_grant now r s r' ds s' :
  attempt now r s = (r', ds, s') ->
  s' = s \/
  ((forall e0, kv_get s (rq_fullKey r) = Some (number_to_string e0) -> e0 <= unix now) /\
   s' = kv_put s (rq_fullKey r) (number_to_string (unix now + cfg_timeout (rq_cfg r)))).
Proof.
  intros Ha. pose proof (attempt_cases now r s) as Hc. rewrite Ha in Hc.
  destruct Hc as (_ & _ & [[-> _] | (_ & Hexp & Hfree & ->)]); [by left | right].
  split; [intros e0 He; apply Z.nlt_ge, (Hfree e0 He) | by rewrite Hexp].
Qed.

Lemma abs_attempt w a r r' ds s' l log :
  abs w a -> attempt (w_now w) r (w_store w) = (r', ds, s') ->
  exists a', (a' = a \/ astep a a') /\ abs (mk_world (w_now w) s' l log) a'.
Proof.
  intros Habs Ha. pose proof Habs as [Hnow Hs].
  destruct (attempt_grant _ _ _ _ _ _ Ha) as [-> | [Hfree ->]].
  - exists a. split; [by left | by apply abs_keep].
  - exists (al_set a (rq_fullKey r) (Some (unix (al_now a) + cfg_timeout (rq_cfg r)))).
    split.
    + right. apply astep_acquire. intros e He. rewrite Hnow. apply Hfree.
      by rewrite Hs, He.
    + apply abs_set; [done |]. intros k'. rewrite kv_get_put, Hnow. done.
Qed.

Lemma abs_release w a i r r' ds s' :
  sinv w -> abs w a -> w_reqs w !! i = Some r -> rq_pc r = PHolding ->
  release_now (w_now w) r (w_store w) = (r', ds, s') ->
  exists a', (a' = a \/ astep a a') /\ abs (upd_req w i r' ds s') a'.
Proof.
  intros Hinv Habs Hi Hp Hrel. pose proof Habs as [Hnow Hs].
  pose proof (release_cases (w_now w) r (w_store w)) as Hc. rewrite Hrel in Hc.
  destruct Hc as (_ & Hlate & Htimely).
  destruct (Z_lt_le_dec (unix (w_now w)) (rq_expires r)) as [Hlt | Hge].
  - destruct (Htimely Hlt) as [Hnone Hframe].
    destruct (Hinv i r (conj Hi (conj Hp Hlt))) as [Hheld _].
    destruct (al_lease a (rq_fullKey r)) as [e|] eqn:He;
      rewrite Hs, He in Hheld; simplify_eq/=.
    apply number_to_string_inj in Hheld as ->.
    exists (al_set a (rq_fullKey r) None). split.
    + right. apply (astep_release a _ (rq_expires r)); [done | by rewrite Hnow].
    + apply abs_set; [done |]. intros k'. case_decide; [by subst | by apply Hframe].
  - exists a. split; [by left |]. rewrite (Hlate Hge). by apply abs_keep.
Qed.

Lemma cstep_simulation w w' a :
  sinv w -> abs w a -> cstep w w' -> exists a', (a' = a \/ astep a a') /\ abs w' a'.
Proof.
  intros Hinv Habs Hstep. pose proof Habs as [Hnow Hs].
  destruct Hstep as [w d Hd|w cfg key r' ds s' Ha|w i r due r' ds s' Hi Hp Hdue Ha
                    |w i r r' ds s' Hi Hp Hrel].
  - exists (mk_alock (al_now a + d) (al_lease a)). split; [right; by constructor |].
    split; simpl; [lia | apply Hs].
  - by eapply abs_attempt.
  - by eapply abs_attempt.
  - by eapply abs_release.
Qed.

Lemma star_simulation w0 w a0 :
  star cstep w0 w -> sinv w0 -> abs w0 a0 ->
  exists a, star astep a0 a /\ abs w a.
Proof.
  intros Hst. revert a0. induction Hst as [w|x y w Hxy _ IH]; intros a0 Hinv Habs.
  - exists a0. split; [constructor | done].
  - destruct (cstep_simulation x y a0 Hinv Habs Hxy) as (a1 & Ha1 & Habs1).
    destruct (IH a1 (cstep_sinv x y Hinv Hxy) Habs1) as (a & Hst' & Habs').
    exists a. split; [| done]. destruct Ha1 as [-> | Hs1]; [done | by eapply star_step].
Qed.

End Refinement.

(** ** The refinement *)

Local Open Scope ls_scope.

(** *** C19. Refinement: every world the serialized system reaches
    encodes, in its store and clock, a state the abstract lease lock
    reaches from the empty table.  Every change the code makes to the
    store is a grant of a free or expired key with lease
    [unix now + timeout], or the removal of a running lease by its
    holder. *)
Theorem serial_refinement {St : Type} `{KVStore St} (w : world St) :
  creachable w -> exists a, astep⋆ alock_init a /\ abs w a.
Proof.
  intros Hr. apply (star_simulation init_world w alock_init Hr sinv_init).
  split; [done |]. intros k. apply kv_get_empty.
Qed.

(** ** Witness *)

Module LockSpecWitness.
Definition cfg : config := mk_config "p:" 10 3.
Definition r0 : req := mk_req cfg "x" 0 0 (PTimer 0).
Definition w1 : world (gmap string string) :=
  let '(r', ds, s') := attempt 0 r0 (w_store init_world) in
  mk_world 0 s' [r'] ds.

Lemma serial_refinement_witness :
  creachable w1 /\ exists a, astep⋆ alock_init a /\ abs w1 a.
Proof.
  assert (Hr : creachable w1).
  { apply (star_step init_world w1 w1); [| apply star_refl].
    apply (cstep_lock init_world cfg (Some "x")). vm_compute. reflexivity. }
  split; [exact Hr | exact (serial_refinement w1 Hr)].
Defined.
End LockSpecWitness.
