(* ===== verification/Prompt.v ===== *)
(** * Prompt schedules: where the fine-grained system keeps mutual exclusion

    [System] shows three interleavings that give two requests an
    unexpired lease on one key: a GETSET that writes a lease older than
    the one it replaces ([Race]), a DEL that lands after its lease ran
    out ([DelayedDel]), and a callback that runs long after its command
    ([LateCallback]).  This file shows that excluding these three is
    enough: in every schedule of the fine-grained system where

    - each command's callback runs as soon as its reply arrives, before
      any other event ([prompt_fn] fuses [AExec]/[AFail]/[ALost] with
      the [ACallback] that follows),
    - every GETSET that takes effect writes a lease no smaller than the
      one in the store, and every DEL that takes effect lands while its
      lease runs ([LateCallback.timely_action]),

    at most one request owns a key, and the store holds a lease no
    smaller than the owner's.  Requests of different keys, GET/GETSET
    pairs of different requests, timers and releases still interleave
    freely.  A request "owns" its key while it holds the lock or has a
    DEL in flight, and its lease runs. *)

From S2P Require Import Prelude JsValue Clock Store Config Acquire System.

Abbreviation gworld := (world (gmap string string)).

(** ** Prompt schedules *)

(** One event of a prompt schedule. *)
Definition prompt_fn (a : action) (w : gworld) : option gworld :=
  match a with
  | AExec i | AFail i | ALost i =>
      if LateCallback.timely_action w a then
        match step_fn a w with
        | Some w1 => step_fn (ACallback i) w1
        | None => None
        end
      else None
  | ACallback _ => None
  | _ => step_fn a w
  end.

Definition pstep (w w' : gworld) : Prop := exists a, prompt_fn a w = Some w'.

Definition preachable (w : gworld) : Prop := star pstep init_world w.

(** Play a prompt schedule. *)
Fixpoint prun (acts : list action) (w : gworld) : option gworld :=
  match acts with
  | [] => Some w
  | a :: acts => match prompt_fn a w with Some w' => prun acts w' | None => None end
  end.

(** ** Owners *)

Definition owning (now : Z) (r : req) : Prop :=
  (rq_pc r = PHolding \/ rq_pc r = PPending (CDel (rq_fullKey r))) /\
  unix now < rq_expires r.

Definition owner (w : gworld) (i : nat) (r : req) (k : string) : Prop :=
  w_reqs w !! i = Some r /\ rq_fullKey r = k /\ owning (w_now w) r.

(** At most one owner per key, and the store holds a lease no smaller
    than the owner's. *)
Definition excl_inv (w : gworld) : Prop :=
  (forall i j ri rj k, owner w i ri k -> owner w j rj k -> i = j) /\
  (forall i r k, owner w i r k ->
     exists e, kv_get (w_store w) k = Some (number_to_string e) /\ rq_expires r <= e).

Definition pinv (w : gworld) : Prop := world_inv w /\ excl_inv w.

(** ** Prompt schedules are schedules of the system *)

(** A fused command and callback are two steps of the system. *)
Lemma fused_in_system a i w w' :
  LateCallback.timely_action w a = true ->
  match step_fn a w with Some w1 => step_fn (ACallback i) w1 | None => None end = Some w' ->
  star step w w'.
Proof.
  intros _ H. destruct (step_fn a w) as [w1|] eqn:E1; [| discriminate].
  apply (star_step w w1 w'); [by eapply step_fn_sound | apply star_one; by eapply step_fn_sound].
Qed.

Lemma prompt_in_system a w w' : prompt_fn a w = Some w' -> star step w w'.
Proof.
  intros H. destruct a; cbv beta iota delta [prompt_fn] in H;
    try discriminate; try (apply star_one; by eapply step_fn_sound);
    destruct (LateCallback.timely_action _ _) eqn:Ht; try discriminate; by eapply fused_in_system.
Qed.

Lemma preachable_reachable w : preachable w -> reachable w.
Proof.
  unfold preachable, reachable. intros Hr. induction Hr as [|x y z [a Ha] _ IH]; [constructor |].
  eapply star_trans; [by eapply prompt_in_system | exact IH].
Qed.

(** ** How an update of one request changes the owners *)

Lemma owner_upd w i r' ds s' j rj k :
  owner (upd_req w i r' ds s') j rj k ->
  (j = i /\ rj = r' /\ rq_fullKey r' = k /\ owning (w_now w) r') \/
  (j <> i /\ owner w j rj k).
Proof.
  intros (Hj & Hk & Ho). simpl in Hj, Ho.
  destruct (decide (j = i)) as [-> | Hji].
  - apply list_lookup_insert_Some in Hj as [(_ & <- & _) | (? & _)]; [| done]. by left.
  - right. rewrite list_lookup_insert_ne in Hj by done. done.
Qed.

(** Replacing request [i] (whose command touches key [k] only) keeps the
    invariant when the other owners of [k] still find a large enough
    lease, and [r'] owns [k] only alone and with its lease stored. *)
Lemma excl_upd w i r r' ds s' k :
  excl_inv w -> w_reqs w !! i = Some r ->
  (forall k', k' <> k -> kv_get s' k' = kv_get (w_store w) k') ->
  (forall j rj, j <> i -> owner w j rj k ->
     exists e, kv_get s' k = Some (number_to_string e) /\ rq_expires rj <= e) ->
  (owning (w_now w) r' -> rq_fullKey r' = k /\
     (forall j rj, j <> i -> ~ owner w j rj k) /\
     exists e, kv_get s' k = Some (number_to_string e) /\ rq_expires r' <= e) ->
  excl_inv (upd_req w i r' ds s').
Proof.
  intros [Huniq Hstored] Hi Hframe Hothers Hnew. split.
  - intros j1 j2 r1 r2 k' H1 H2.
    destruct (owner_upd _ _ _ _ _ _ _ _ H1) as [(-> & -> & Hk1 & Ho1) | (Hj1 & Hw1)],
             (owner_upd _ _ _ _ _ _ _ _ H2) as [(-> & -> & Hk2 & Ho2) | (Hj2 & Hw2)];
      try done.
    + destruct (Hnew Ho1) as (<- & Hnone & _). subst k'. by destruct (Hnone j2 r2 Hj2 Hw2).
    + destruct (Hnew Ho2) as (<- & Hnone & _). subst k'. by destruct (Hnone j1 r1 Hj1 Hw1).
    + by apply (Huniq j1 j2 r1 r2 k').
  - intros j rj k' Hj. destruct (owner_upd _ _ _ _ _ _ _ _ Hj) as [(-> & -> & Hk & Ho) | (Hji & Hw)].
    + destruct (Hnew Ho) as (<- & _ & He). subst k'. exact He.
    + unfold upd_req; cbn [w_store]. destruct (decide (k' = k)) as [-> | Hk]; [by apply (Hothers j rj) |].
      rewrite Hframe by done. by apply (Hstored j rj k').
Qed.

(** ** A fused command and callback *)

(** The store after the command, and the reply its callback receives:
    executed, failed without effect, or executed with the reply lost. *)
Definition fused_effect (a : action) (c : cmd) (s : gmap string string) :
    gmap string string * reply :=
  match a with
  | AExec _ => let '(s', v) := exec_cmd c s in (s', ROk v)
  | AFail _ => (s, RErr)
  | _ => ((exec_cmd c s).1, RErr)
  end.

Definition fused (a : action) (i : nat) : Prop := a = AExec i \/ a = AFail i \/ a = ALost i.

Lemma fused_effect_cases a i c s :
  fused a i ->
  fused_effect a c s = (s, RErr) \/ fused_effect a c s = ((exec_cmd c s).1, RErr) \/
  fused_effect a c s = ((exec_cmd c s).1, ROk (exec_cmd c s).2).
Proof.
  intros [-> | [-> | ->]]; simpl; [| by left | by right; left].
  destruct (exec_cmd c s). by right; right.
Qed.

Lemma upd_req_twice (w : gworld) i r1 r2 ds s1 s2 :
  (i < length (w_reqs w))%nat ->
  upd_req (upd_req w i r1 [] s1) i r2 ds s2 = upd_req w i r2 ds s2.
Proof.
  intros Hlen. unfold upd_req. simpl. by rewrite list_insert_insert_eq, app_nil_r.
Qed.

Lemma rq_pc_set_pc r p : rq_pc (set_pc r p) = p.
Proof. reflexivity. Qed.

(** The handlers do not read the program point they overwrite. *)
Lemma callback_set_pc now r p c rep : callback now (set_pc r p) c rep = callback now r c rep.
Proof. reflexivity. Qed.

Lemma fused_shape a i w w' :
  fused a i ->
  match step_fn a w with Some w1 => step_fn (ACallback i) w1 | None => None end = Some w' ->
  exists r c, w_reqs w !! i = Some r /\ rq_pc r = PPending c /\
    w' = upd_req w i (callback (w_now w) r c (fused_effect a c (w_store w)).2).1
                     (callback (w_now w) r c (fused_effect a c (w_store w)).2).2
                     (fused_effect a c (w_store w)).1.
Proof.
  intros Ha H. destruct (w_reqs w !! i) as [r|] eqn:Hi;
    [| destruct Ha as [-> | [-> | ->]]; simpl in H; rewrite Hi in H; discriminate].
  pose proof (lookup_lt_Some _ _ _ Hi) as Hlen.
  destruct (rq_pc r) eqn:Hp;
    try (destruct Ha as [-> | [-> | ->]]; simpl in H; rewrite Hi, Hp in H; discriminate).
  exists r, c. split_and!; [done | done |].
  destruct Ha as [-> | [-> | ->]]; cbn [step_fn] in H; rewrite Hi, Hp in H;
    [destruct (exec_cmd c (w_store w)) as [s' v] eqn:He |  |];
    cbn [step_fn upd_req w_reqs w_now w_store] in H;
    rewrite list_lookup_insert_eq in H by done; rewrite rq_pc_set_pc in H; cbv iota beta in H;
    rewrite callback_set_pc in H;
    cbn [fused_effect]; rewrite ?He; cbn [fst snd];
    destruct (callback _ _ _ _) as [r' ds]; simplify_eq; cbn [fst snd];
    apply (upd_req_twice w i); done.
Qed.

(** ** What one fused event does to the owners *)

Lemma excl_absent w k :
  excl_inv w -> kv_get (w_store w) k = None -> forall j rj, ~ owner w j rj k.
Proof.
  intros [_ Hst] Hk j rj Ho. destruct (Hst _ _ _ Ho) as (e & He & _). congruence.
Qed.

(** Replacing a request by one that owns nothing, store unchanged. *)
Lemma excl_upd_same w i r r' ds :
  excl_inv w -> w_reqs w !! i = Some r -> ~ owning (w_now w) r' ->
  excl_inv (upd_req w i r' ds (w_store w)).
Proof.
  intros Hex Hi Hno. apply (excl_upd w i r r' ds _ (rq_fullKey r)); [done | done | done | | done].
  intros j rj _ Ho. apply (proj2 Hex _ _ _ Ho).
Qed.

Lemma not_owning_pc now r :
  rq_pc r <> PHolding -> (forall k, rq_pc r <> PPending (CDel k)) -> ~ owning now r.
Proof. intros H1 H2 [[Hp | Hp] _]; [by apply H1 | by apply (H2 _ Hp)]. Qed.

(** A store error ends the request without ownership. *)
Lemma callback_err_not_owning now r c : ~ owning now (callback now r c RErr).1.
Proof. apply not_owning_pc; [| intros k]; destruct c; simpl; congruence. Qed.

(** GET never makes its request an owner. *)
Lemma handleGet_not_owning now r rep : ~ owning now (handleGet now r rep).
Proof.
  apply not_owning_pc; [| intros k]; unfold handleGet; repeat case_match;
    first [apply retry_not_holding | apply retry_not_pending | cbn; congruence].
Qed.

Lemma cmd_wf_of (w : gworld) i r c :
  world_inv w -> w_reqs w !! i = Some r -> rq_pc r = PPending c -> cmd_wf r c.
Proof.
  intros [Hwf _] Hi Hp. pose proof (Forall_lookup_1 _ _ _ _ Hwf Hi) as Hr.
  unfold req_wf in Hr. by rewrite Hp in Hr.
Qed.

(** A command that takes effect under the timeliness check leaves other
    keys alone and leaves every other owner of its key a large enough
    lease. *)
Lemma exec_keeps_others w i r c :
  pinv w -> w_reqs w !! i = Some r -> rq_pc r = PPending c ->
  LateCallback.timely_action w (AExec i) = true ->
  (forall k', k' <> rq_fullKey r -> kv_get (exec_cmd c (w_store w)).1 k' = kv_get (w_store w) k') /\
  (forall j rj, j <> i -> owner w j rj (rq_fullKey r) ->
     exists e, kv_get (exec_cmd c (w_store w)).1 (rq_fullKey r) = Some (number_to_string e) /\
               rq_expires rj <= e).
Proof.
  intros [Hwi Hex] Hi Hp Ht. pose proof (cmd_wf_of w i r c Hwi Hi Hp) as Hc.
  pose proof Hex as [Huniq Hst].
  unfold LateCallback.timely_action in Ht. rewrite Hi, Hp in Ht.
  destruct c as [k v|k|k v|k]; simpl in Hc; [destruct Hc as [-> ->] | subst k | destruct Hc as [-> ->] | subst k];
    cbn [exec_cmd fst].
  - destruct (kv_get (w_store w) (rq_fullKey r)) eqn:Hk; cbn [fst].
    + split; [done |]. intros j rj _ Ho. apply (Hst _ _ _ Ho).
    + split; [intros k' Hk'; by apply kv_get_put_ne |].
      intros j rj _ Ho. by destruct (excl_absent w _ Hex Hk j rj Ho).
  - split; [done |]. intros j rj _ Ho. apply (Hst _ _ _ Ho).
  - split; [intros k' Hk'; by apply kv_get_put_ne |].
    intros j rj _ Ho. destruct (Hst _ _ _ Ho) as (e & He & Hle).
    rewrite He in Ht. cbn in Ht. rewrite string_to_number_roundtrip in Ht.
    apply bool_decide_eq_true in Ht.
    exists (rq_expires r). split; [apply kv_get_put_eq | lia].
  - apply Z.ltb_lt in Ht.
    destruct (kv_get (w_store w) (rq_fullKey r)) eqn:Hk; cbn [fst].
    + split; [intros k' Hk'; by apply kv_get_del_ne |].
      intros j rj Hji Ho. destruct Hji.
      apply (Huniq j i rj r (rq_fullKey r)); [done |].
      split_and!; [done | done |]. split; [by right | done].
    + split; [done |]. intros j rj _ Ho. apply (Hst _ _ _ Ho).
Qed.

Lemma retry_not_owning now n r : ~ owning n (retry now r).
Proof. apply not_owning_pc; [apply retry_not_holding | intros k; apply retry_not_pending]. Qed.

(** A GETSET reply that lets the request hold proves that no one else
    owns the key. *)
Lemma getset_holder_alone w i k :
  excl_inv w -> js_lt_num (unix (w_now w)) (bulk (kv_get (w_store w) k)) = false ->
  forall j rj, j <> i -> ~ owner w j rj k.
Proof.
  intros [_ Hst] Hlt j rj _ Ho. destruct (Hst _ _ _ Ho) as (e & He & Hle).
  rewrite He in Hlt. cbn [bulk] in Hlt. rewrite js_lt_num_lease in Hlt.
  apply Z.ltb_ge in Hlt. destruct Ho as (_ & _ & _ & Hnow). lia.
Qed.

(** When the reply of an executed command makes its request an owner,
    it is the only owner of its key and its lease is the stored one. *)
Lemma exec_new_owner w i r c :
  pinv w -> w_reqs w !! i = Some r -> rq_pc r = PPending c ->
  owning (w_now w) (callback (w_now w) r c (ROk (exec_cmd c (w_store w)).2)).1 ->
  rq_fullKey (callback (w_now w) r c (ROk (exec_cmd c (w_store w)).2)).1 = rq_fullKey r /\
  (forall j rj, j <> i -> ~ owner w j rj (rq_fullKey r)) /\
  exists e, kv_get (exec_cmd c (w_store w)).1 (rq_fullKey r) = Some (number_to_string e) /\
            rq_expires (callback (w_now w) r c (ROk (exec_cmd c (w_store w)).2)).1 <= e.
Proof.
  intros [Hwi Hex] Hi Hp Ho. pose proof (cmd_wf_of w i r c Hwi Hi Hp) as Hc.
  destruct c as [k v|k|k v|k]; simpl in Hc; [destruct Hc as [-> ->] | subst k | destruct Hc as [-> ->] | subst k].
  - cbn [exec_cmd callback] in *. destruct (kv_get (w_store w) (rq_fullKey r)) eqn:Hk;
      cbn [fst snd handleSetnx] in Ho |- *.
    + exfalso. revert Ho. apply not_owning_pc; [| intros k]; cbn; congruence.
    + split_and!; [done | intros j rj _; exact (excl_absent w _ Hex Hk j rj) |].
      exists (rq_expires r). split; [apply kv_get_put_eq | cbn; lia].
  - exfalso. exact (handleGet_not_owning _ _ _ Ho).
  - cbn [exec_cmd callback fst snd] in *. unfold handleGetSet in *.
    destruct (js_lt_num _ _) eqn:Hlt; [by apply retry_not_owning in Ho |].
    split_and!; [done | by apply (getset_holder_alone w i) |].
    exists (rq_expires r). split; [apply kv_get_put_eq | cbn; lia].
  - exfalso. revert Ho. apply not_owning_pc; [| intros k]; cbn; repeat case_match; cbn; congruence.
Qed.

Lemma fused_effect_exec i c s :
  fused_effect (AExec i) c s = ((exec_cmd c s).1, ROk (exec_cmd c s).2).
Proof. simpl. by destruct (exec_cmd c s). Qed.

Lemma timely_lost w i : LateCallback.timely_action w (ALost i) = LateCallback.timely_action w (AExec i).
Proof. reflexivity. Qed.

(** A fused event keeps at most one owner per key, with its lease stored. *)
Lemma fused_excl a i w r c :
  pinv w -> fused a i -> w_reqs w !! i = Some r -> rq_pc r = PPending c ->
  LateCallback.timely_action w a = true ->
  excl_inv (upd_req w i (callback (w_now w) r c (fused_effect a c (w_store w)).2).1
                        (callback (w_now w) r c (fused_effect a c (w_store w)).2).2
                        (fused_effect a c (w_store w)).1).
Proof.
  intros Hinv Ha Hi Hp Ht. pose proof Hinv as [_ Hex].
  destruct Ha as [-> | [-> | ->]]; [rewrite fused_effect_exec | | rewrite timely_lost in Ht];
    cbn [fused_effect fst snd].
  - destruct (exec_keeps_others w i r c Hinv Hi Hp Ht) as [Hframe Hothers].
    apply (excl_upd w i r _ _ _ (rq_fullKey r)); [done | done | done | done |].
    intros Ho. by apply exec_new_owner.
  - by apply (excl_upd_same w i r); [| | apply callback_err_not_owning].
  - destruct (exec_keeps_others w i r c Hinv Hi Hp Ht) as [Hframe Hothers].
    apply (excl_upd w i r _ _ _ (rq_fullKey r)); [done | done | done | done |].
    intros Ho. by apply callback_err_not_owning in Ho.
Qed.

(** ** The other events *)

Lemma excl_tick w d :
  excl_inv w -> 0 < d -> excl_inv (mk_world (w_now w + d) (w_store w) (w_reqs w) (w_log w)).
Proof.
  intros [Huniq Hst] Hd.
  assert (Hold : forall j rj k, owner (mk_world (w_now w + d) (w_store w) (w_reqs w) (w_log w)) j rj k ->
                 owner w j rj k).
  { intros j rj k (Hj & Hk & Hp & Hlt). split; [done | split; [done | split; [done |]]].
    pose proof (unix_mono (w_now w) (w_now w + d)). simpl in Hlt. lia. }
  split; [intros ????? H1 H2; exact (Huniq _ _ _ _ _ (Hold _ _ _ H1) (Hold _ _ _ H2)) |].
  intros j rj k Ho. exact (Hst _ _ _ (Hold _ _ _ Ho)).
Qed.

Lemma excl_lock w cfg key :
  excl_inv w ->
  excl_inv (mk_world (w_now w) (w_store w) (w_reqs w ++ [lock cfg key (w_now w)]) (w_log w)).
Proof.
  intros [Huniq Hst].
  assert (Hold : forall j rj k,
            owner (mk_world (w_now w) (w_store w) (w_reqs w ++ [lock cfg key (w_now w)]) (w_log w)) j rj k ->
            owner w j rj k).
  { intros j rj k (Hj & Hk & Ho). simpl in Hj.
    apply lookup_snoc_Some in Hj as [[_ Hj] | [_ <-]]; [done |].
    exfalso. revert Ho. apply not_owning_pc; [| intros k']; cbn; congruence. }
  split; [intros ????? H1 H2; exact (Huniq _ _ _ _ _ (Hold _ _ _ H1) (Hold _ _ _ H2)) |].
  intros j rj k Ho. exact (Hst _ _ _ (Hold _ _ _ Ho)).
Qed.

Lemma excl_release w i r :
  excl_inv w -> w_reqs w !! i = Some r -> rq_pc r = PHolding ->
  excl_inv (upd_req w i (_release (w_now w) r).1 (_release (w_now w) r).2 (w_store w)).
Proof.
  intros Hex Hi Hp. pose proof Hex as [Huniq Hst]. unfold _release.
  destruct (Z.ltb_spec (unix (w_now w)) (rq_expires r)) as [Hlt | Hge]; cbn [fst snd].
  - assert (Hown : owner w i r (rq_fullKey r)).
    { split; [done | split; [done | split; [by left | done]]]. }
    apply (excl_upd w i r _ _ _ (rq_fullKey r)); [done | done | done | |].
    + intros j rj _ Ho. apply (Hst _ _ _ Ho).
    + intros _. split_and!; [done | intros j rj Hji Hj; apply Hji; exact (Huniq _ _ _ _ _ Hj Hown) |].
      exact (Hst _ _ _ Hown).
  - apply (excl_upd_same w i r); [done | done |].
    apply not_owning_pc; [| intros k]; cbn; congruence.
Qed.

(** ** The invariant of prompt schedules *)

Lemma fused_pinv a i w w' :
  pinv w -> fused a i -> LateCallback.timely_action w a = true ->
  match step_fn a w with Some w1 => step_fn (ACallback i) w1 | None => None end = Some w' ->
  excl_inv w'.
Proof.
  intros Hinv Ha Ht H. destruct (fused_shape a i w w' Ha H) as (r & c & Hi & Hp & ->).
  by apply fused_excl.
Qed.

Lemma prompt_pinv a w w' : pinv w -> prompt_fn a w = Some w' -> pinv w'.
Proof.
  intros Hinv H. split.
  { eapply (star_ind_inv step world_inv); [apply step_inv | by eapply prompt_in_system | apply Hinv]. }
  pose proof Hinv as [_ Hex].
  destruct a as [d|cfg key|i|i|i|i|i|i]; cbv beta iota delta [prompt_fn] in H; try discriminate;
    try (destruct (LateCallback.timely_action _ _) eqn:Ht; [| discriminate];
         match type of Ht with
         | LateCallback.timely_action _ ?a = _ =>
             apply (fused_pinv a i w w' Hinv); [unfold fused; eauto | exact Ht | exact H]
         end);
    cbn [step_fn] in H.
  - destruct (Z.ltb_spec 0 d); [simplify_eq; by apply excl_tick | discriminate].
  - simplify_eq. by apply excl_lock.
  - destruct (w_reqs w !! i) as [r|] eqn:Hi; [| discriminate].
    destruct (rq_pc r) eqn:Hp; try discriminate. destruct (_ <=? _); [| discriminate].
    simplify_eq. apply (excl_upd_same w i r); [done | done |].
    apply not_owning_pc; [| intros k]; cbn; congruence.
  - destruct (w_reqs w !! i) as [r|] eqn:Hi; [| discriminate].
    destruct (rq_pc r) eqn:Hp; try discriminate.
    pose proof (excl_release w i r Hex Hi Hp) as Hrel.
    destruct (_release (w_now w) r) as [r' ds]. by simplify_eq.
Qed.

Lemma pinv_init : pinv init_world.
Proof.
  split; [split; [constructor | apply numeric_store_empty] |].
  split; [intros ????? [Hi _] | intros ??? [Hi _]]; simpl in Hi; discriminate.
Qed.

Lemma preachable_pinv w : preachable w -> pinv w.
Proof.
  intros Hr. eapply (star_ind_inv pstep pinv); [| exact Hr | exact pinv_init].
  intros x y Hx [a Ha]. by eapply prompt_pinv.
Qed.

Lemma prun_sound acts w w' : prun acts w = Some w' -> star pstep w w'.
Proof.
  revert w. induction acts as [|a acts IH]; intros w H; simpl in H; [simplify_eq; constructor |].
  destruct (prompt_fn a w) as [w1|] eqn:E; [| discriminate].
  apply (star_step w w1 w'); [by exists a | by apply IH].
Qed.

(** ** Mutual exclusion *)

(** *** C24. Mutual exclusion of prompt schedules: every world a prompt
    schedule reaches is a world of the fine-grained system, no two
    requests hold unexpired leases on one key there, and the store holds
    a lease no smaller than that of the owner of each key. *)
Theorem prompt_mutual_exclusion w :
  preachable w ->
  reachable w /\ exclusive w /\
  forall i r k, owner w i r k ->
    exists e, kv_get (w_store w) k = Some (number_to_string e) /\ rq_expires r <= e.
Proof.
  intros Hr. destruct (preachable_pinv w Hr) as [_ [Huniq Hst]].
  split_and!; [by apply preachable_reachable | | exact Hst].
  intros k i j (ri & Hi & Hpi & Hki & Hlti) (rj & Hj & Hpj & Hkj & Hltj).
  apply (Huniq i j ri rj k).
  - split; [done | split; [done | split; [by left | done]]].
  - split; [done | split; [done | split; [by left | done]]].
Qed.

(** ** Witness *)

Module PromptWitness.
Definition cfg : config := mk_config "p:" 10 3.

(** Request 0 takes "x"; request 1 finds it held and waits for its
    timer; request 0 releases in time and its DEL lands. *)
Definition schedule : list action :=
  [ ALock cfg (Some "x"); AExec 0; ALock cfg (Some "x"); AExec 1; AExec 1;
    ARelease 0; AExec 0 ].

Lemma prompt_mutual_exclusion_witness :
  match prun schedule init_world with
  | Some w =>
      preachable w /\ reachable w /\ exclusive w /\
      forall i r k, owner w i r k ->
        exists e, kv_get (w_store w) k = Some (number_to_string e) /\ rq_expires r <= e
  | None => False
  end.
Proof.
  destruct (prun schedule init_world) as [w|] eqn:E; [| vm_compute in E; discriminate].
  assert (Hr : preachable w) by exact (prun_sound _ _ _ E).
  split; [exact Hr | exact (prompt_mutual_exclusion w Hr)].
Defined.
End PromptWitness.
